(** * SpeakWell backend: text normalisation, word evaluation, scoring

    A shallow embedding of [backend/main.py]: the phrase catalogue, the text
    normaliser [normalize_text], the word evaluator [evaluate_words] and the
    request handlers [get_phrases], [get_phrase] and [transcribe_audio].

    Python values are modelled as the interpreter has them:
    - a [str] is a sequence of Unicode code points ([pystr]);
    - an [int] is an unbounded integer ([Z]);
    - a [float] is an IEEE 754 binary64 number ([spec_float], the Standard
      Library's specification of the format);
    - an exception is an explicit error result.

    The character tables behind [str.lower], [str.split] and the regular
    expression classes [\w] and [\s] belong to the interpreter, not to the
    repository: the embedding takes them as a parameter ([UnicodeData]) and
    states what it needs of them ([UnicodeLaws]). *)

From Stdlib Require Import Ascii String List NArith ZArith QArith Qround Bool Lia Permutation.
From Stdlib Require Import Floats.
Import ListNotations.

Local Open Scope N_scope.

(** ** Python strings *)

Definition codepoint := N.
Definition pystr := list codepoint.

Definition pystr_eq_dec : forall a b : pystr, {a = b} + {a <> b} :=
  list_eq_dec N.eq_dec.

(** Source text is UTF-8; [utf8_decode] reads the code points of a byte
    sequence, so that literals can be written as they are in [main.py]. *)
Fixpoint utf8_decode (bs : list N) : pystr :=
  match bs with
  | [] => []
  | b0 :: r0 =>
    if b0 <? 128 then b0 :: utf8_decode r0
    else match r0 with
      | [] => []
      | b1 :: r1 =>
        if b0 <? 224 then ((b0 mod 32) * 64 + b1 mod 64) :: utf8_decode r1
        else match r1 with
          | [] => []
          | b2 :: r2 =>
            if b0 <? 240
            then ((b0 mod 16) * 4096 + (b1 mod 64) * 64 + b2 mod 64) :: utf8_decode r2
            else match r2 with
              | [] => []
              | b3 :: r3 =>
                ((b0 mod 8) * 262144 + (b1 mod 64) * 4096 + (b2 mod 64) * 64 + b3 mod 64)
                  :: utf8_decode r3
              end
          end
      end
  end.

Definition u (s : string) : pystr :=
  utf8_decode (map N_of_ascii (list_ascii_of_string s)).

Definition SPACE : codepoint := 32.
Definition APOSTROPHE : codepoint := 39.
Definition UNDERSCORE : codepoint := 95.
Definition CAPITAL_SIGMA : codepoint := 931.      (* U+03A3 *)
Definition FINAL_SIGMA : codepoint := 962.        (* U+03C2 *)
Definition SMALL_SIGMA : codepoint := 963.        (* U+03C3 *)

(** ** The interpreter's character database

    One field per table of CPython's [unicodectype.c] that the code reaches:
    [str.lower] uses [to_lower_full], [is_cased] and [is_case_ignorable];
    [\w] uses the four tables of [Py_UNICODE_ISALNUM]; [\s] and [str.split]
    use [is_space].  [is_upper] is [str.isupper] on one character; the code
    never calls it, it is here to state properties of results. *)
Record UnicodeData := {
  to_lower_full : codepoint -> list codepoint;
  is_cased : codepoint -> bool;
  is_case_ignorable : codepoint -> bool;
  is_alpha : codepoint -> bool;
  is_decimal : codepoint -> bool;
  is_digit : codepoint -> bool;
  is_numeric : codepoint -> bool;
  is_space : codepoint -> bool;
  is_upper : codepoint -> bool
}.

(** What the proofs below need of the tables.  All five hold of the Unicode
    Character Database: lowercase mappings produce characters that
    lowercasing leaves alone, and U+0020 is an uncased white space. *)
Record UnicodeLaws (U : UnicodeData) : Prop := {
  lower_is_stable :
    forall c d, In d (to_lower_full U c) -> to_lower_full U d = [d];
  lower_has_no_capital_sigma :
    forall c, ~ In CAPITAL_SIGMA (to_lower_full U c);
  sigmas_are_stable :
    to_lower_full U SMALL_SIGMA = [SMALL_SIGMA] /\
    to_lower_full U FINAL_SIGMA = [FINAL_SIGMA];
  space_is_uncased : to_lower_full U SPACE = [SPACE];
  space_is_space : is_space U SPACE = true
}.

Section Strings.

Variable U : UnicodeData.

(** *** [str.lower]

    CPython's [do_lower]: every character is replaced by its full lowercase
    mapping, except U+03A3, which becomes a final or a medial small sigma
    according to its context ([handle_capital_sigma]). *)
Fixpoint skip_case_ignorable (s : pystr) : pystr :=
  match s with
  | [] => []
  | c :: s' => if is_case_ignorable U c then skip_case_ignorable s' else s
  end.

(** [before] holds the characters to the left of the sigma, nearest first. *)
Definition handle_capital_sigma (before after : pystr) : codepoint :=
  let final_sigma :=
    match skip_case_ignorable before with
    | [] => false
    | c :: _ =>
      if is_cased U c then
        match skip_case_ignorable after with
        | [] => true
        | d :: _ => negb (is_cased U d)
        end
      else false
    end in
  if final_sigma then FINAL_SIGMA else SMALL_SIGMA.

Definition lower_ucs4 (before : pystr) (c : codepoint) (after : pystr) : list codepoint :=
  if c =? CAPITAL_SIGMA then [handle_capital_sigma before after]
  else to_lower_full U c.

Fixpoint do_lower (before s : pystr) : pystr :=
  match s with
  | [] => []
  | c :: after => lower_ucs4 before c after ++ do_lower (c :: before) after
  end.

Definition str_lower (s : pystr) : pystr := do_lower [] s.

(** *** [re.sub] with a one-character class

    The pattern of [normalize_text] is a single negated set, so every match
    is one character and [re.sub] rewrites the text character by character. *)
Inductive class_item :=
  | CategoryWord                 (* \w *)
  | CategorySpace                (* \s *)
  | Literal (c : codepoint).

Definition is_alnum (c : codepoint) : bool :=
  is_alpha U c || is_decimal U c || is_digit U c || is_numeric U c.

Definition item_matches (it : class_item) (c : codepoint) : bool :=
  match it with
  | CategoryWord => is_alnum c || (c =? UNDERSCORE)
  | CategorySpace => is_space U c
  | Literal l => c =? l
  end.

Definition set_matches (negate : bool) (items : list class_item) (c : codepoint) : bool :=
  xorb negate (existsb (fun it => item_matches it c) items).

Fixpoint re_sub_set (negate : bool) (items : list class_item)
    (repl : pystr) (text : pystr) : pystr :=
  match text with
  | [] => []
  | c :: rest =>
    (if set_matches negate items c then repl else [c])
      ++ re_sub_set negate items repl rest
  end.

(** *** [str.split()] and [str.join]

    [split_from tok s] scans [s] with [tok] the characters of the word being
    read: white space closes the word, anything else extends it; empty words
    are never produced. *)
Definition close_word (tok : pystr) (words : list pystr) : list pystr :=
  match tok with
  | [] => words
  | _ => tok :: words
  end.

Fixpoint split_from (tok s : pystr) : list pystr :=
  match s with
  | [] => close_word tok []
  | c :: s' =>
    if is_space U c then close_word tok (split_from [] s')
    else split_from (tok ++ [c]) s'
  end.

Definition str_split (s : pystr) : list pystr := split_from [] s.

Fixpoint str_join (sep : pystr) (parts : list pystr) : pystr :=
  match parts with
  | [] => []
  | [p] => p
  | p :: rest => p ++ sep ++ str_join sep rest
  end.

(** *** [normalize_text] (main.py, lines 69-78) *)
Definition punctuation_pattern : list class_item :=
  [CategoryWord; CategorySpace; Literal APOSTROPHE].     (* [^\w\s'] *)

Definition normalize_text (text : pystr) : pystr :=
  let text := str_lower text in
  let text := re_sub_set true punctuation_pattern [] text in
  let text := str_join [SPACE] (str_split text) in
  text.

End Strings.

(** ** A concrete character database

    The tables restricted to Basic Latin and Latin-1 Supplement (U+0000 to
    U+00FF, which holds every letter of Portuguese) and a few characters from
    outside that show the rarer behaviours: U+0130 (a lowercase mapping of two
    characters), U+0307 (a combining mark), the three sigmas, U+2102 (an
    uppercase letter with no lowercase form) and U+2003 (a white space
    outside ASCII).  Code points beyond these are treated as uncased
    symbols. *)
Module Sample.

Definition between (lo hi c : codepoint) : bool := (lo <=? c) && (c <=? hi).

Definition one_of (cs : list codepoint) (c : codepoint) : bool :=
  existsb (N.eqb c) cs.

Definition latin_upper (c : codepoint) : bool :=
  between 65 90 c || between 192 214 c || between 216 222 c.

Definition latin_letter (c : codepoint) : bool :=
  between 65 90 c || between 97 122 c || one_of [170; 181; 186] c
  || between 192 214 c || between 216 246 c || between 248 255 c.

Definition lower (c : codepoint) : list codepoint :=
  if latin_upper c then [c + 32]
  else if c =? 304 then [105; 775]
  else if c =? CAPITAL_SIGMA then [SMALL_SIGMA]
  else [c].

Definition ucd : UnicodeData := {|
  to_lower_full := lower;
  is_cased := fun c => latin_letter c || one_of [304; 931; 962; 963; 8450] c;
  is_case_ignorable := one_of [39; 46; 58; 94; 96; 168; 173; 175; 180; 183; 184; 775];
  is_alpha := fun c => latin_letter c || one_of [304; 931; 962; 963; 8450] c;
  is_decimal := between 48 57;
  is_digit := fun c => between 48 57 c || one_of [178; 179; 185] c;
  is_numeric := fun c => between 48 57 c || one_of [178; 179; 185; 188; 189; 190] c;
  is_space := fun c => between 9 13 c || between 28 32 c || one_of [133; 160; 8195] c;
  is_upper := fun c => latin_upper c || one_of [304; 931; 8450] c
|}.

End Sample.

(** ** Python numbers

    A [float] is a binary64 number.  Every arithmetic result of the handler
    is the binary64 number nearest to an exact rational (ties to even):
    [int / int] rounds the true quotient, [float * int] the true product,
    and [round(x, 1)] the decimal obtained from the exact value of [x]. *)
Definition prec : Z := 53.
Definition emax : Z := 1024.

(** The exact value of a finite float. *)
Definition float_value (x : spec_float) : Q :=
  match x with
  | S754_finite s m e =>
    let n := if s then Zneg m else Zpos m in
    match e with
    | Z0 => n # 1
    | Zpos p => (n * 2 ^ Zpos p)%Z # 1
    | Zneg p => n # (2 ^ p)%positive
    end
  | _ => 0%Q
  end.

(** Correct rounding of a rational: the quotient of numerator by denominator
    is taken with enough bits ([SFdiv_core_binary]) and rounded to nearest
    even ([binary_round_aux]), as IEEE division does. *)
Definition nearest_float (q : Q) : spec_float :=
  match Qred q with
  | Qmake Z0 _ => S754_zero false
  | Qmake (Zpos n) d =>
    let '(m, e, l) := SFdiv_core_binary prec emax (Zpos n) 0 (Zpos d) 0 in
    binary_round_aux prec emax false m e l
  | Qmake (Zneg n) d =>
    let '(m, e, l) := SFdiv_core_binary prec emax (Zpos n) 0 (Zpos d) 0 in
    binary_round_aux prec emax true m e l
  end.

(** A float literal such as [66.7] denotes the float nearest to the decimal. *)
Definition float_literal (q : Q) : spec_float := nearest_float q.

Definition float_of_int (z : Z) : spec_float := nearest_float (inject_Z z).

(** [a / b] on ints, for [b > 0] (the handler guards the division). *)
Definition int_true_div (a b : Z) : spec_float := nearest_float (a # Z.to_pos b).

Definition float_mul (x y : spec_float) : spec_float := SFmul prec emax x y.

(** Nearest integer, ties to even. *)
Definition round_half_even (q : Q) : Z :=
  let f := Qfloor q in
  match Qcompare (q - inject_Z f) (1 # 2) with
  | Lt => f
  | Gt => (f + 1)%Z
  | Eq => if Z.even f then f else (f + 1)%Z
  end.

(** [round(x, ndigits)] for a float and [ndigits >= 0]: the exact value of
    [x] is rounded to [ndigits] decimals, ties to even, and the decimal is
    read back as a float (CPython's [double_round]). *)
Definition float_round (x : spec_float) (ndigits : nat) : spec_float :=
  match x with
  | S754_finite s m e =>
    let scale := inject_Z (10 ^ Z.of_nat ndigits) in
    let k := round_half_even (float_value (S754_finite false m e) * scale) in
    let r := nearest_float (inject_Z k / scale) in
    if s then SFopp r else r
  | _ => x
  end.

Inductive pynum :=
  | PyInt (z : Z)
  | PyFloat (x : spec_float).

(** [round(v, ndigits)] with [ndigits >= 0]: an int is returned as it is. *)
Definition py_round (v : pynum) (ndigits : nat) : pynum :=
  match v with
  | PyInt z => PyInt z
  | PyFloat x => PyFloat (float_round x ndigits)
  end.

(** A [float] field of a pydantic model accepts an int and stores a float. *)
Definition float_field (v : pynum) : spec_float :=
  match v with
  | PyInt z => float_of_int z
  | PyFloat x => x
  end.

(** ** Models (main.py, lines 35-51) *)
Record WordEvaluation := {
  word : pystr;
  correct : bool
}.

Record TranscriptionResponse := {
  transcribed_text : pystr;
  expected_phrase : pystr;
  word_evaluations : list WordEvaluation;
  overall_score : spec_float;
  all_correct : bool
}.

Record Phrase := {
  id : Z;
  phrase : pystr;
  translation : pystr
}.

Record HTTPException := {
  status_code : Z;
  detail : pystr
}.

(** ** The phrase catalogue (main.py, lines 55-66) *)
Definition PORTUGUESE_PHRASES : list Phrase := [
  {| id := 1; phrase := u "Olá, como vai?"; translation := u "Hello, how are you?" |};
  {| id := 2; phrase := u "Bom dia"; translation := u "Good morning" |};
  {| id := 3; phrase := u "Obrigado"; translation := u "Thank you" |};
  {| id := 4; phrase := u "Por favor"; translation := u "Please" |};
  {| id := 5; phrase := u "Como se chama?"; translation := u "What is your name?" |};
  {| id := 6; phrase := u "Muito prazer"; translation := u "Nice to meet you" |};
  {| id := 7; phrase := u "Até logo"; translation := u "See you later" |};
  {| id := 8; phrase := u "Boa noite"; translation := u "Good night" |};
  {| id := 9; phrase := u "Eu não entendo"; translation := u "I don't understand" |};
  {| id := 10; phrase := u "Você fala inglês?"; translation := u "Do you speak English?" |}
].

(** [GET /phrases] *)
Definition get_phrases : list Phrase := PORTUGUESE_PHRASES.

(** [GET /phrases/{phrase_id}]: the loop returns at the first phrase with the
    id and raises 404 when it runs to the end. *)
Fixpoint find_phrase (phrases : list Phrase) (phrase_id : Z) : HTTPException + Phrase :=
  match phrases with
  | [] => inl {| status_code := 404; detail := u "Phrase not found" |}
  | phrase :: rest =>
    if (id phrase =? phrase_id)%Z then inr phrase
    else find_phrase rest phrase_id
  end.

Definition get_phrase (phrase_id : Z) : HTTPException + Phrase :=
  find_phrase PORTUGUESE_PHRASES phrase_id.

(** ** Exceptions and the outside world

    The handler reads the upload and calls the speech-to-text provider; both
    may raise.  [world] fixes what the two calls answer during one request,
    and the handler runs in a monad that logs every call it makes. *)
Inductive exn := Exception (message : pystr).

Definition str_of_exn (e : exn) : pystr :=
  match e with Exception message => message end.

Definition bytes := list N.

Record stt_request := {
  file : bytes;
  model_id : pystr;
  tag_audio_events : bool;
  language_code : pystr
}.

(** What the provider's client returns: an object with a [text] attribute,
    or one without, of which only [str(...)] is used. *)
Inductive transcription :=
  | WithText (text : pystr)
  | WithoutText (repr : pystr).

Record world := {
  audio_read : exn + bytes;
  speech_to_text_convert : stt_request -> exn + transcription
}.

Inductive event :=
  | AudioRead
  | ProviderCall (request : stt_request).

Definition io (A : Type) : Type := list event -> list event * (exn + A).

Definition ret {A} (a : A) : io A := fun log => (log, inr a).

Definition bind {A B} (m : io A) (k : A -> io B) : io B :=
  fun log =>
    match m log with
    | (log', inl e) => (log', inl e)
    | (log', inr a) => k a log'
    end.

Notation "x <- m ;; k" := (bind m (fun x => k))
  (at level 61, m at next level, right associativity).

Definition read (w : world) : io bytes :=
  fun log => (log ++ [AudioRead], audio_read w).

Definition convert (w : world) (request : stt_request) : io transcription :=
  fun log => (log ++ [ProviderCall request], speech_to_text_convert w request).

(** [try: body  except Exception as e: raise handler(e)] *)
Definition try_except {A} (body : io A) (handler : exn -> HTTPException)
    : list event * (HTTPException + A) :=
  match body [] with
  | (log, inl e) => (log, inl (handler e))
  | (log, inr a) => (log, inr a)
  end.


Section Evaluation.

Variable U : UnicodeData.

(** Python's [x in xs] on a list of strings. *)
Definition contains (w : pystr) (ws : list pystr) : bool :=
  existsb (fun x => if pystr_eq_dec w x then true else false) ws.

(** *** [evaluate_words] (main.py, lines 81-103) *)
Definition evaluate_words (transcribed expected : pystr) : list WordEvaluation :=
  let transcribed_normalized := normalize_text U transcribed in
  let expected_normalized := normalize_text U expected in
  let transcribed_words := str_split U transcribed_normalized in
  let expected_words := str_split U expected_normalized in
  fold_left
    (fun evaluations expected_word =>
       let is_correct := contains expected_word transcribed_words in
       evaluations ++ [{| word := expected_word; correct := is_correct |}])
    expected_words [].

(** *** [transcribe_audio] (main.py, lines 127-174) *)
Definition sum_ones (evals : list WordEvaluation) : Z :=
  fold_left Z.add (map (fun _ => 1%Z) (filter correct evals)) 0%Z.

Definition score (correct_count total_count : Z) : pynum :=
  if (total_count >? 0)%Z
  then PyFloat (float_mul (int_true_div correct_count total_count) (float_of_int 100))
  else PyInt 0.

Definition transcribe_body (w : world) (expected : pystr) : io TranscriptionResponse :=
  audio_content <- read w ;;
  let audio_data := audio_content in
  result <- convert w {| file := audio_data;
                         model_id := u "scribe_v1";
                         tag_audio_events := false;
                         language_code := u "por" |} ;;
  let transcribed := match result with
                     | WithText text => text
                     | WithoutText repr => repr
                     end in
  let evaluations := evaluate_words transcribed expected in
  let correct_count := sum_ones evaluations in
  let total_count := Z.of_nat (List.length evaluations) in
  let overall := score correct_count total_count in
  let all := (correct_count =? total_count)%Z in
  ret {| transcribed_text := transcribed;
         expected_phrase := expected;
         word_evaluations := evaluations;
         overall_score := float_field (py_round overall 1);
         all_correct := all |}.

Definition transcribe_audio (w : world) (expected : pystr)
    : list event * (HTTPException + TranscriptionResponse) :=
  try_except (transcribe_body w expected)
    (fun e => {| status_code := 500;
                 detail := u "Transcription failed: " ++ str_of_exn e |}).

End Evaluation.

(** ** The specification's reading of the normaliser and of the score

    These definitions follow the specification's words, not the code; the
    theorems below compare them with the code. *)
Section Specification.

Variable U : UnicodeData.

Definition is_letter (c : codepoint) : bool := is_alpha U c.

Definition is_number (c : codepoint) : bool :=
  is_decimal U c || is_digit U c || is_numeric U c.

(** Step 2: the characters that survive. *)
Definition survives (c : codepoint) : bool :=
  is_letter c || is_number c || (c =? UNDERSCORE) || is_space U c || (c =? APOSTROPHE).

(** Step 3, first half: every maximal run of white space becomes one U+0020.
    [in_run] tells that the previous character was white space. *)
Fixpoint collapse_whitespace (in_run : bool) (s : pystr) : pystr :=
  match s with
  | [] => []
  | c :: s' =>
    if is_space U c
    then (if in_run then [] else [SPACE]) ++ collapse_whitespace true s'
    else c :: collapse_whitespace false s'
  end.

(** Step 3, second half: trimming. *)
Fixpoint lstrip (s : pystr) : pystr :=
  match s with
  | [] => []
  | c :: s' => if is_space U c then lstrip s' else s
  end.

Fixpoint rstrip (s : pystr) : pystr :=
  match s with
  | [] => []
  | c :: s' =>
    match rstrip s' with
    | [] => if is_space U c then [] else [c]
    | r => c :: r
    end
  end.

Definition trim (s : pystr) : pystr := rstrip (lstrip s).

Definition normalize_spec (s : pystr) : pystr :=
  trim (collapse_whitespace false (filter survives (str_lower U s))).

Definition nonspace (c : codepoint) : Prop := is_space U c = false.

(** No character of the current word has been read yet. *)
Definition starting (tok : pystr) : bool :=
  match tok with [] => true | _ :: _ => false end.

(** A word as [str.split] produces them: not empty, no white space. *)
Definition is_word (w : pystr) : Prop := w <> [] /\ Forall nonspace w.

(** The words of a text once lowercased and cleaned. *)
Definition words_of (s : pystr) : list pystr :=
  str_split U (filter survives (str_lower U s)).

(** A character that [str.lower] leaves as it is, whatever surrounds it. *)
Definition lower_stable (c : codepoint) : Prop :=
  c <> CAPITAL_SIGMA /\ to_lower_full U c = [c].

(** A character in canonical comparison form: lowercasing and the pattern
    of [normalize_text] both leave it alone. *)
Definition canonical_char (c : codepoint) : Prop :=
  lower_stable c /\ survives c = true.

End Specification.

(** [round(100 * count / len, 1)], read as Python evaluates it. *)
Definition spec_score (count len : Z) : spec_float :=
  float_round (int_true_div (100 * count) len) 1.

(** The same with exact arithmetic: the percentage as a rational, rounded to
    one decimal (ties to even), then stored as a float. *)
Definition exact_score (count len : Z) : spec_float :=
  nearest_float (inject_Z (round_half_even ((100 * count # Z.to_pos len) * 10)) / 10).

(** The number of evaluations marked correct. *)
Definition count_correct (evals : list WordEvaluation) : nat :=
  length (filter correct evals).

(** The words of a text as the evaluator sees them. *)
Definition normalized_words (U : UnicodeData) (s : pystr) : list pystr :=
  str_split U (normalize_text U s).

(** The request the handler sends for an upload, and the text it takes
    from the answer. *)
Definition request_for (audio : bytes) : stt_request :=
  {| file := audio; model_id := u "scribe_v1";
     tag_audio_events := false; language_code := u "por" |}.

Definition text_of (t : transcription) : pystr :=
  match t with WithText text => text | WithoutText repr => repr end.


(** ** Worlds and inputs used in examples *)

(** A world in which the upload reads and the provider answers [text]. *)
Definition provider_says (text : pystr) : world := {|
  audio_read := inr [82; 73; 70; 70];
  speech_to_text_convert := fun _ => inr (WithText text)
|}.



(** An expected phrase of eighty words, twenty-three of them ["a"]. *)
Definition eighty_words : pystr :=
  concat (repeat (u "a ") 23 ++ repeat (u "b ") 57).

(** U+2102, DOUBLE-STRUCK CAPITAL C. *)
Definition DOUBLE_STRUCK_C : codepoint := 8450.

(** The number of times the upload is read in a log. *)
Definition audio_reads (log : list event) : nat :=
  length (filter (fun ev => match ev with AudioRead => true | ProviderCall _ => false end)
            log).

(** ** The test script (test_scripts/test_backend.py)

    The script talks to a running backend over HTTP and reads one file.  The
    model keeps the requests it sends, the values its functions return and
    the status it exits with; what it prints is left out. *)
Module Script.

#[local] Set Warnings "-register-all".

(** A decoded JSON document, with Python's types. *)
Inductive json :=
  | JNull
  | JBool (b : bool)
  | JInt (z : Z)
  | JFloat (x : spec_float)
  | JString (s : pystr)
  | JArray (items : list json)
  | JObject (members : list (pystr * json)).

(** The exception classes the script tells apart; all derive from
    [Exception]. *)
Inductive error_kind :=
  | ConnectionError
  | FileNotFoundError
  | TypeError
  | IndexError
  | KeyError
  | OtherError.

Record pyerror := {
  kind : error_kind;
  text : pystr
}.

Definition raise_error {A} (k : error_kind) : pyerror + A :=
  inl {| kind := k; text := [] |}.







(** *** The network and the file system *)
Inductive http_request :=
  | Get (url : pystr) (timeout : option Z)
  | Post (url : pystr) (files : list (pystr * (pystr * bytes * pystr)))
         (data : list (pystr * pystr)).

Record http_response := {
  status : Z;
  json_body : pyerror + json       (* response.json() *)
}.

(** What a request is answered may depend on the requests sent before. *)
Record client_world := {
  send : list http_request -> http_request -> pyerror + http_response;
  open_rb : pystr -> pyerror + bytes
}.

Definition script (A : Type) : Type :=
  list http_request -> list http_request * (pyerror + A).

Definition ret {A} (a : A) : script A := fun log => (log, inr a).

Definition bind {A B} (m : script A) (k : A -> script B) : script B :=
  fun log =>
    match m log with
    | (log', inl e) => (log', inl e)
    | (log', inr a) => k a log'
    end.

Notation "x <-- m ;; k" := (bind m (fun x => k))
  (at level 61, m at next level, right associativity).












(** *** [main] (lines 112-160) *)

(** [xs.index(x)]; [None] stands for [ValueError]. *)
Fixpoint list_index (x : pystr) (xs : list pystr) : option nat :=
  match xs with
  | [] => None
  | y :: rest =>
    if pystr_eq_dec y x then Some 0%nat
    else option_map S (list_index x rest)
  end.

Definition WITH_AUDIO : pystr := u "--with-audio".

(** The conditional expression that picks the audio file; it is evaluated
    only when the flag is among the arguments. *)
Definition audio_path_of (argv : list pystr) : pystr :=
  match list_index WITH_AUDIO argv with
  | Some i =>
    if (i + 1 <? length argv)%nat then nth (i + 1) argv [] else u "sample.mp3"
  | None => u "sample.mp3"
  end.





(** *** What the tests accept, said without the control flow *)










(** *** Worlds used in examples *)

(** A file system without files. *)
Definition no_files (path : pystr) : pyerror + bytes := raise_error FileNotFoundError.


(** No server listening. *)
Definition no_server : client_world := {|
  send := fun _ _ => raise_error ConnectionError;
  open_rb := no_files
|}.

End Script.

(** ** The backend as the script meets it

    [root] is the health check of main.py (lines 106-109).  The rest of this
    section is the web framework's part, as the decorators of main.py fix
    it: a route per path, the JSON form of each response model (an object
    with the model's fields), status 200 for a returned value, and for a
    raised [HTTPException] its status with the body [{"detail": ...}].  Only
    the four routes at the addresses the script uses are modelled; any other
    request gets no answer here. *)
Module Served.

Import Script.












End Served.

(** ** Checking scores by evaluation *)

Definition spec_float_eqb (a b : spec_float) : bool :=
  match a, b with
  | S754_zero s, S754_zero t => Bool.eqb s t
  | S754_infinity s, S754_infinity t => Bool.eqb s t
  | S754_nan, S754_nan => true
  | S754_finite s m e, S754_finite t n f => Bool.eqb s t && Pos.eqb m n && Z.eqb e f
  | _, _ => false
  end.

(** The number of tenths in the percentage the handler computes. *)
Definition score_tenths (count total : Z) : Z :=
  round_half_even
    (float_value (float_mul (int_true_div count total) (float_of_int 100)) * 10).

(** The score for [count] out of [total] is the float written [k/10] for an
    integer [k] from 0 to 1000. *)
Definition score_is_decimal (count total : Z) : bool :=
  let k := score_tenths count total in
  (0 <=? k)%Z && (k <=? 1000)%Z
  && spec_float_eqb (float_field (py_round (score count total) 1))
       (float_literal (k # 10)).

Definition scores_are_decimal (bound : nat) : bool :=
  forallb (fun n => forallb (fun c => score_is_decimal (Z.of_nat c) (Z.of_nat n))
                      (seq 0 (S n)))
    (seq 1 bound).

(** ** Properties of the string operations *)
Section StringFacts.

Variable U : UnicodeData.

Lemma re_sub_set_delete (negate : bool) (items : list class_item) (text : pystr) :
  re_sub_set U negate items [] text
  = filter (fun c => negb (set_matches U negate items c)) text.
Proof.
  induction text as [|c rest IH]; simpl; [reflexivity|].
  destruct (set_matches U negate items c); simpl; now rewrite IH.
Qed.

Lemma close_word_words (tok : pystr) (words : list pystr) :
  Forall (nonspace U) tok -> Forall (is_word U) words -> Forall (is_word U) (close_word tok words).
Proof.
  intros Ht Hw. destruct tok as [|c tok]; simpl; [assumption|].
  constructor; [split; [discriminate | assumption] | assumption].
Qed.

Lemma split_from_words (s tok : pystr) :
  Forall (nonspace U) tok -> Forall (is_word U) (split_from U tok s).
Proof.
  revert tok. induction s as [|c s IH]; intros tok Ht; simpl.
  - apply close_word_words; [assumption | constructor].
  - destruct (is_space U c) eqn:Hc.
    + apply close_word_words; [assumption | apply IH; constructor].
    + apply IH. apply Forall_app. split; [assumption | repeat constructor; exact Hc].
Qed.

Lemma str_split_words (s : pystr) : Forall (is_word U) (str_split U s).
Proof. apply split_from_words. constructor. Qed.

Lemma close_word_In (tok w : pystr) (words : list pystr) :
  In w (close_word tok words) -> w = tok \/ In w words.
Proof. destruct tok; simpl; intuition. Qed.

(** The characters of the words come from the text. *)
Lemma split_from_chars (s tok w : pystr) (c : codepoint) :
  In w (split_from U tok s) -> In c w -> In c tok \/ In c s.
Proof.
  revert tok. induction s as [|d s IH]; intros tok Hw Hc; simpl in Hw.
  - apply close_word_In in Hw. destruct Hw as [->|[]]. now left.
  - destruct (is_space U d).
    + apply close_word_In in Hw. destruct Hw as [->|Hw]; [now left|].
      destruct (IH [] Hw Hc) as [[]|H]. right. now right.
    + destruct (IH _ Hw Hc) as [H|H].
      * apply in_app_or in H. destruct H as [H|[<-|[]]]; [now left | right; now left].
      * right. now right.
Qed.

Lemma str_split_chars (s w : pystr) (c : codepoint) :
  In w (str_split U s) -> In c w -> In c s.
Proof. intros Hw Hc. destruct (split_from_chars s [] w c Hw Hc) as [[]|H]. exact H. Qed.

Lemma split_from_app_word (w s tok : pystr) :
  Forall (nonspace U) w -> split_from U tok (w ++ s) = split_from U (tok ++ w) s.
Proof.
  revert tok. induction w as [|c w IH]; intros tok Hw; simpl.
  - now rewrite app_nil_r.
  - inversion Hw as [|? ? Hc Hw']; subst. unfold nonspace in Hc. rewrite Hc.
    rewrite IH by assumption. now rewrite <- app_assoc.
Qed.

Lemma split_from_space (c : codepoint) (s tok : pystr) :
  is_space U c = true ->
  split_from U tok (c :: s) = close_word tok (split_from U [] s).
Proof. intros Hc. simpl. now rewrite Hc. Qed.

Lemma str_join_cons (sep w w' : pystr) (ws : list pystr) :
  str_join sep (w :: w' :: ws) = w ++ sep ++ str_join sep (w' :: ws).
Proof. reflexivity. Qed.

(** Splitting what [" ".join] built gives the words back. *)
Lemma split_join (ws : list pystr) :
  is_space U SPACE = true ->
  Forall (is_word U) ws -> str_split U (str_join [SPACE] ws) = ws.
Proof.
  intros Hsp. unfold str_split. induction ws as [|w ws IH]; intros Hws; [reflexivity|].
  inversion Hws as [|? ? [Hne Hw] Hws']; subst.
  destruct ws as [|w' ws].
  - simpl. rewrite <- (app_nil_r w) at 1. rewrite split_from_app_word by assumption.
    simpl. destruct w; [contradiction | reflexivity].
  - rewrite str_join_cons, split_from_app_word by assumption.
    change ([SPACE] ++ str_join [SPACE] (w' :: ws))
      with (SPACE :: str_join [SPACE] (w' :: ws)).
    rewrite split_from_space by assumption.
    rewrite (IH Hws'). destruct w; [contradiction | reflexivity].
Qed.

Lemma str_join_chars (ws : list pystr) (c : codepoint) :
  In c (str_join [SPACE] ws) -> c = SPACE \/ exists w, In w ws /\ In c w.
Proof.
  induction ws as [|w ws IH]; simpl; [intros []|].
  destruct ws as [|w' ws].
  - intros H. right. exists w. split; [now left | assumption].
  - intros H. apply in_app_or in H. destruct H as [H|H].
    + right. exists w. split; [now left | assumption].
    + destruct H as [<-|H]; [now left|].
      destruct (IH H) as [->|[x [Hx Hc]]]; [now left|].
      right. exists x. split; [now right | assumption].
Qed.

End StringFacts.

(** ** Trimming and collapsing against [split] and [join] *)
Section WhitespaceFacts.

Variable U : UnicodeData.
Hypothesis space_white : is_space U SPACE = true.

Lemma rstrip_nonspace (t : pystr) : Forall (nonspace U) t -> rstrip U t = t.
Proof.
  induction 1 as [|c t Hc Ht IH]; simpl; [reflexivity|].
  rewrite IH. unfold nonspace in Hc. rewrite Hc. now destruct t.
Qed.

Lemma rstrip_app (a b : pystr) :
  rstrip U (a ++ b) = match rstrip U b with [] => rstrip U a | _ :: _ => a ++ rstrip U b end.
Proof.
  induction a as [|c a IH]; simpl.
  - now destruct (rstrip U b).
  - rewrite IH. destruct (rstrip U b) as [|d r]; [reflexivity|].
    now destruct a.
Qed.

Lemma rstrip_space (x : pystr) :
  rstrip U (SPACE :: x)
  = match rstrip U x with [] => [] | _ :: _ => SPACE :: rstrip U x end.
Proof. simpl. rewrite space_white. now destruct (rstrip U x). Qed.

Lemma lstrip_collapse (s : pystr) (in_run : bool) :
  lstrip U (collapse_whitespace U in_run s) = collapse_whitespace U true s.
Proof.
  revert in_run. induction s as [|c s IH]; intros in_run; simpl; [reflexivity|].
  destruct (is_space U c) eqn:Hc.
  - destruct in_run; simpl; [apply IH|]. rewrite space_white. apply IH.
  - simpl. now rewrite Hc.
Qed.

Lemma str_join_words_nonempty (w : pystr) (ws : list pystr) :
  w <> [] -> str_join [SPACE] (w :: ws) <> [].
Proof.
  intros Hw. destruct ws; simpl; [assumption|].
  destruct w; [contradiction | discriminate].
Qed.

Lemma join_split_from (s tok : pystr) :
  Forall (nonspace U) tok ->
  str_join [SPACE] (split_from U tok s)
  = rstrip U (tok ++ collapse_whitespace U (starting tok) s).
Proof.
  revert tok. induction s as [|c s IH]; intros tok Ht.
  - simpl. rewrite app_nil_r, rstrip_nonspace by assumption. now destruct tok.
  - simpl. destruct (is_space U c) eqn:Hc.
    + pose proof (IH [] (Forall_nil _)) as IH0. simpl in IH0.
      destruct tok as [|t tok]; [exact IH0|].
      remember (t :: tok) as tk eqn:Etk.
      replace (starting tk) with false by (subst tk; reflexivity).
      replace (close_word tk (split_from U [] s)) with (tk :: split_from U [] s)
        by (subst tk; reflexivity).
      change ([SPACE] ++ collapse_whitespace U true s)
        with (SPACE :: collapse_whitespace U true s).
      rewrite rstrip_app, rstrip_space, <- IH0.
      pose proof (split_from_words U s [] (Forall_nil _)) as Hws.
      destruct (split_from U [] s) as [|w ws].
      * simpl. now rewrite rstrip_nonspace.
      * apply Forall_inv in Hws. destruct Hws as [Hw _].
        pose proof (str_join_words_nonempty w ws Hw) as Hne.
        rewrite str_join_cons.
        destruct (str_join [SPACE] (w :: ws)); [contradiction | reflexivity].
    + rewrite IH.
      * rewrite <- app_assoc. simpl. now destruct tok.
      * apply Forall_app. split; [assumption | repeat constructor; exact Hc].
Qed.

(** [" ".join(text.split())] collapses the runs of white space and trims. *)
Lemma join_split_trim (s : pystr) :
  str_join [SPACE] (str_split U s) = trim U (collapse_whitespace U false s).
Proof.
  unfold trim, str_split. rewrite lstrip_collapse.
  exact (join_split_from s [] (Forall_nil _)).
Qed.

End WhitespaceFacts.

(** ** Properties of the normaliser *)
Section NormalizerFacts.

Variable U : UnicodeData.

Lemma pattern_keeps_survivors (c : codepoint) :
  negb (set_matches U true punctuation_pattern c) = survives U c.
Proof.
  unfold set_matches, punctuation_pattern, survives, is_letter, is_number,
    item_matches, is_alnum. simpl.
  destruct (is_alpha U c), (is_decimal U c), (is_digit U c), (is_numeric U c),
    (c =? UNDERSCORE), (is_space U c), (c =? APOSTROPHE); reflexivity.
Qed.

(** The normaliser as a pipeline of list functions. *)
Lemma normalize_text_unfold (s : pystr) :
  normalize_text U s
  = str_join [SPACE] (str_split U (filter (survives U) (str_lower U s))).
Proof.
  unfold normalize_text. rewrite re_sub_set_delete.
  do 2 f_equal. apply filter_ext. exact pattern_keeps_survivors.
Qed.

Lemma do_lower_stable (s before : pystr) :
  Forall (lower_stable U) s -> do_lower U before s = s.
Proof.
  revert before. induction s as [|c s IH]; intros before Hs; [reflexivity|].
  apply Forall_cons_iff in Hs. destruct Hs as [[Hc Hl] Hs]. simpl.
  unfold lower_ucs4. apply N.eqb_neq in Hc. rewrite Hc, Hl. simpl.
  now rewrite IH.
Qed.

Lemma filter_all (A : Type) (f : A -> bool) (l : list A) :
  Forall (fun x => f x = true) l -> filter f l = l.
Proof.
  induction 1 as [|x l Hx Hl IH]; simpl; [reflexivity|]. now rewrite Hx, IH.
Qed.

Hypothesis laws : UnicodeLaws U.

Lemma lower_ucs4_stable (before after : pystr) (c d : codepoint) :
  In d (lower_ucs4 U before c after) -> lower_stable U d.
Proof.
  unfold lower_ucs4. destruct (N.eqb_spec c CAPITAL_SIGMA) as [->|Hc].
  - intros [<-|[]]. unfold handle_capital_sigma.
    destruct (sigmas_are_stable U laws) as [Hs Hf].
    match goal with |- lower_stable U (if ?b then _ else _) => destruct b end;
      (split; [discriminate | assumption]).
  - intros Hd. split.
    + intros ->. exact (lower_has_no_capital_sigma U laws c Hd).
    + exact (lower_is_stable U laws c d Hd).
Qed.

Lemma do_lower_chars (s before : pystr) : Forall (lower_stable U) (do_lower U before s).
Proof.
  revert before. induction s as [|c s IH]; intros before; simpl; [constructor|].
  apply Forall_app. split; [|apply IH].
  apply Forall_forall. intros d Hd. exact (lower_ucs4_stable _ _ _ _ Hd).
Qed.

Lemma space_canonical : canonical_char U SPACE.
Proof.
  split; [split; [discriminate | exact (space_is_uncased U laws)]|].
  unfold survives. rewrite (space_is_space U laws). now rewrite !orb_true_r.
Qed.

Lemma words_of_canonical (s w : pystr) (c : codepoint) :
  In w (words_of U s) -> In c w -> canonical_char U c.
Proof.
  intros Hw Hc. pose proof (str_split_chars U _ _ _ Hw Hc) as H.
  apply filter_In in H. destruct H as [H Hk]. split; [|exact Hk].
  pose proof (do_lower_chars s []) as Hl. rewrite Forall_forall in Hl.
  exact (Hl c H).
Qed.

Lemma normalize_text_canonical (s : pystr) :
  Forall (canonical_char U) (normalize_text U s).
Proof.
  rewrite normalize_text_unfold. apply Forall_forall. intros c Hc.
  apply str_join_chars in Hc. destruct Hc as [->|[w [Hw Hc]]].
  - exact space_canonical.
  - exact (words_of_canonical s w c Hw Hc).
Qed.

(** Text in canonical form passes the first two steps unchanged. *)
Lemma canonical_clean (t : pystr) :
  Forall (canonical_char U) t -> filter (survives U) (str_lower U t) = t.
Proof.
  intros Ht. unfold str_lower. rewrite do_lower_stable.
  - apply filter_all. eapply Forall_impl; [|exact Ht]. now intros c [_ H].
  - eapply Forall_impl; [|exact Ht]. now intros c [H _].
Qed.

(** The words of the normalised text are the words of the cleaned text. *)
Lemma split_normalize_text (s : pystr) :
  str_split U (normalize_text U s) = words_of U s.
Proof.
  rewrite normalize_text_unfold. apply split_join.
  - exact (space_is_space U laws).
  - apply str_split_words.
Qed.

Lemma normalize_text_idempotent (s : pystr) :
  normalize_text U (normalize_text U s) = normalize_text U s.
Proof.
  rewrite (normalize_text_unfold (normalize_text U s)).
  rewrite canonical_clean by apply normalize_text_canonical.
  rewrite split_normalize_text. symmetry. apply normalize_text_unfold.
Qed.

(** A word of a normalised text is its own normal form. *)
Lemma normalize_word (s w : pystr) :
  In w (str_split U (normalize_text U s)) -> normalize_text U w = w.
Proof.
  rewrite split_normalize_text. intros Hw.
  assert (Hcan : Forall (canonical_char U) w).
  { apply Forall_forall. intros c Hc. exact (words_of_canonical s w c Hw Hc). }
  pose proof (str_split_words U (filter (survives U) (str_lower U s))) as Hws.
  rewrite Forall_forall in Hws. destruct (Hws w Hw) as [Hne Hns].
  rewrite normalize_text_unfold, canonical_clean by assumption.
  unfold str_split. rewrite <- (app_nil_r w) at 1.
  rewrite split_from_app_word by assumption. simpl.
  destruct w; [contradiction | reflexivity].
Qed.

End NormalizerFacts.

(** ** The sample database satisfies the laws *)
Lemma between_spec (lo hi c : codepoint) :
  Sample.between lo hi c = true <-> lo <= c <= hi.
Proof.
  unfold Sample.between. rewrite andb_true_iff, !N.leb_le. reflexivity.
Qed.

Lemma latin_upper_spec (c : codepoint) :
  Sample.latin_upper c = true
  <-> 65 <= c <= 90 \/ 192 <= c <= 214 \/ 216 <= c <= 222.
Proof.
  unfold Sample.latin_upper. rewrite !orb_true_iff, !between_spec. tauto.
Qed.

Lemma sample_lower_other (d : codepoint) :
  Sample.latin_upper d = false -> d <> 304 -> d <> CAPITAL_SIGMA ->
  Sample.lower d = [d].
Proof.
  intros Hu H1 H2. unfold Sample.lower. rewrite Hu.
  apply N.eqb_neq in H1. apply N.eqb_neq in H2. now rewrite H1, H2.
Qed.

Lemma sample_lower_cases (c : codepoint) :
  (Sample.latin_upper c = true /\ Sample.lower c = [c + 32])
  \/ (c = 304 /\ Sample.lower c = [105; 775])
  \/ (c = CAPITAL_SIGMA /\ Sample.lower c = [SMALL_SIGMA])
  \/ (Sample.latin_upper c = false /\ c <> 304 /\ c <> CAPITAL_SIGMA
      /\ Sample.lower c = [c]).
Proof.
  unfold Sample.lower. destruct (Sample.latin_upper c) eqn:Hu; [now left|].
  destruct (N.eqb_spec c 304) as [->|H1]; [right; now left|].
  destruct (N.eqb_spec c CAPITAL_SIGMA) as [->|H2]; [right; right; now left|].
  right; right; right. tauto.
Qed.

Lemma latin_upper_shifted (c : codepoint) :
  Sample.latin_upper c = true -> Sample.latin_upper (c + 32) = false.
Proof.
  intros Hu. apply latin_upper_spec in Hu.
  destruct (Sample.latin_upper (c + 32)) eqn:Hv; [|reflexivity].
  apply latin_upper_spec in Hv. lia.
Qed.

Lemma sample_laws : UnicodeLaws Sample.ucd.
Proof.
  constructor; simpl.
  - intros c d Hd.
    destruct (sample_lower_cases c) as [[Hu E]|[[-> E]|[[-> E]|[Hu [H1 [H2 E]]]]]];
      rewrite E in Hd.
    + destruct Hd as [<-|[]]. apply sample_lower_other.
      * now apply latin_upper_shifted.
      * apply latin_upper_spec in Hu. lia.
      * apply latin_upper_spec in Hu. unfold CAPITAL_SIGMA. lia.
    + destruct Hd as [<-|[<-|[]]]; reflexivity.
    + destruct Hd as [<-|[]]; reflexivity.
    + destruct Hd as [<-|[]]. exact E.
  - intros c Hd.
    destruct (sample_lower_cases c) as [[Hu E]|[[-> E]|[[-> E]|[Hu [H1 [H2 E]]]]]];
      rewrite E in Hd.
    + destruct Hd as [Hd|[]]. apply latin_upper_spec in Hu.
      unfold CAPITAL_SIGMA in Hd. lia.
    + destruct Hd as [Hd|[Hd|[]]]; discriminate.
    + destruct Hd as [Hd|[]]; discriminate.
    + destruct Hd as [Hd|[]]. now apply H2.
  - split; reflexivity.
  - reflexivity.
  - reflexivity.
Qed.

(** ** Properties of the evaluator *)
Section EvaluatorFacts.

Variable U : UnicodeData.

Lemma contains_In (w : pystr) (ws : list pystr) :
  contains w ws = true <-> In w ws.
Proof.
  unfold contains. rewrite existsb_exists. split.
  - intros [x [Hx Heq]]. destruct (pystr_eq_dec w x); [now subst | discriminate].
  - intros Hw. exists w. split; [assumption|].
    destruct (pystr_eq_dec w w); [reflexivity | contradiction].
Qed.

Lemma fold_left_snoc_map (A B : Type) (f : A -> B) (l : list A) (acc : list B) :
  fold_left (fun out x => out ++ [f x]) l acc = acc ++ map f l.
Proof.
  revert acc. induction l as [|x l IH]; intros acc; simpl.
  - now rewrite app_nil_r.
  - rewrite IH, <- app_assoc. reflexivity.
Qed.

(** The loop of [evaluate_words] is a map over the expected words. *)
Lemma evaluate_words_map (transcribed expected : pystr) :
  evaluate_words U transcribed expected
  = map (fun w => {| word := w;
                     correct := contains w (normalized_words U transcribed) |})
      (normalized_words U expected).
Proof. unfold evaluate_words. now rewrite fold_left_snoc_map. Qed.

Lemma evaluate_words_words (transcribed expected : pystr) :
  map word (evaluate_words U transcribed expected) = normalized_words U expected.
Proof. rewrite evaluate_words_map, map_map. simpl. apply map_id. Qed.

Lemma evaluate_words_correct (transcribed expected : pystr) (ev : WordEvaluation) :
  In ev (evaluate_words U transcribed expected) ->
  correct ev = true <-> In (word ev) (normalized_words U transcribed).
Proof.
  rewrite evaluate_words_map. intros Hev. apply in_map_iff in Hev.
  destruct Hev as [w [<- _]]. simpl. apply contains_In.
Qed.

Lemma evaluate_words_none (transcribed expected : pystr) :
  normalized_words U expected = [] -> evaluate_words U transcribed expected = [].
Proof. rewrite evaluate_words_map. now intros ->. Qed.

Lemma fold_left_add_ones (A : Type) (l : list A) (acc : Z) :
  fold_left Z.add (map (fun _ => 1%Z) l) acc = (acc + Z.of_nat (length l))%Z.
Proof.
  revert acc. induction l as [|x l IH]; intros acc; simpl length; simpl map;
    simpl fold_left.
  - lia.
  - rewrite IH. lia.
Qed.

Lemma sum_ones_count (evals : list WordEvaluation) :
  sum_ones evals = Z.of_nat (count_correct evals).
Proof. unfold sum_ones, count_correct. now rewrite fold_left_add_ones. Qed.

Lemma count_correct_le (evals : list WordEvaluation) :
  (count_correct evals <= length evals)%nat.
Proof. apply filter_length_le. Qed.

Lemma count_correct_all (evals : list WordEvaluation) :
  count_correct evals = length evals <-> forallb correct evals = true.
Proof.
  unfold count_correct. induction evals as [|ev evals IH]; simpl; [tauto|].
  pose proof (filter_length_le correct evals) as Hle.
  destruct (correct ev); simpl.
  - rewrite <- IH. split; intros H; lia.
  - split; [intros H; lia | discriminate].
Qed.

(** What a request produces, by cases on what the world answers. *)
Lemma transcribe_audio_upload_error (w : world) (expected : pystr) (e : exn) :
  audio_read w = inl e ->
  transcribe_audio U w expected
  = ([AudioRead],
     inl {| status_code := 500;
            detail := u "Transcription failed: " ++ str_of_exn e |}).
Proof.
  intros H. unfold transcribe_audio, try_except, transcribe_body, bind, read.
  simpl. now rewrite H.
Qed.

Lemma transcribe_audio_provider_error (w : world) (expected : pystr)
    (audio : bytes) (e : exn) :
  audio_read w = inr audio ->
  speech_to_text_convert w (request_for audio) = inl e ->
  transcribe_audio U w expected
  = ([AudioRead; ProviderCall (request_for audio)],
     inl {| status_code := 500;
            detail := u "Transcription failed: " ++ str_of_exn e |}).
Proof.
  intros Ha Hp.
  unfold transcribe_audio, try_except, transcribe_body, bind, read, convert.
  simpl. rewrite Ha. fold (request_for audio). now rewrite Hp.
Qed.

Lemma transcribe_audio_success (w : world) (expected : pystr)
    (audio : bytes) (t : transcription) :
  audio_read w = inr audio ->
  speech_to_text_convert w (request_for audio) = inr t ->
  let evaluations := evaluate_words U (text_of t) expected in
  let count := Z.of_nat (count_correct evaluations) in
  let total := Z.of_nat (length evaluations) in
  transcribe_audio U w expected
  = ([AudioRead; ProviderCall (request_for audio)],
     inr {| transcribed_text := text_of t;
            expected_phrase := expected;
            word_evaluations := evaluations;
            overall_score := float_field (py_round (score count total) 1);
            all_correct := (count =? total)%Z |}).
Proof.
  intros Ha Hp.
  unfold transcribe_audio, try_except, transcribe_body, bind, read, convert, ret.
  simpl. rewrite Ha. fold (request_for audio). rewrite Hp.
  fold (text_of t). now rewrite sum_ones_count.
Qed.

(** Every successful response is the one of [transcribe_audio_success]. *)
Lemma transcribe_audio_inversion (w : world) (expected : pystr)
    (log : list event) (r : TranscriptionResponse) :
  transcribe_audio U w expected = (log, inr r) ->
  exists audio t,
    audio_read w = inr audio
    /\ speech_to_text_convert w (request_for audio) = inr t
    /\ log = [AudioRead; ProviderCall (request_for audio)]
    /\ transcribed_text r = text_of t
    /\ expected_phrase r = expected
    /\ word_evaluations r = evaluate_words U (text_of t) expected
    /\ overall_score r
       = float_field (py_round (score (Z.of_nat (count_correct (word_evaluations r)))
                                      (Z.of_nat (length (word_evaluations r)))) 1)
    /\ all_correct r
       = (Z.of_nat (count_correct (word_evaluations r))
          =? Z.of_nat (length (word_evaluations r)))%Z.
Proof.
  intros H. destruct (audio_read w) as [e|audio] eqn:Ha.
  - rewrite (transcribe_audio_upload_error w expected e Ha) in H. discriminate.
  - destruct (speech_to_text_convert w (request_for audio)) as [e|t] eqn:Hp.
    + rewrite (transcribe_audio_provider_error w expected audio e Ha Hp) in H.
      discriminate.
    + rewrite (transcribe_audio_success w expected audio t Ha Hp) in H.
      injection H as <- <-. exists audio, t. simpl. repeat split; first [assumption | reflexivity].
Qed.

End EvaluatorFacts.

(** ** Properties of the score *)

Lemma nearest_float_Qeq (q q' : Q) : q == q' -> nearest_float q = nearest_float q'.
Proof. intros H. unfold nearest_float. now rewrite (Qred_complete _ _ H). Qed.

Lemma int_true_div_same (n : Z) : (0 < n)%Z -> int_true_div n n = float_literal 1.
Proof.
  intros Hn. unfold int_true_div, float_literal. apply nearest_float_Qeq.
  unfold Qeq. simpl. rewrite Z2Pos.id by assumption. lia.
Qed.

Lemma score_positive (count total : Z) :
  (0 < total)%Z ->
  float_field (py_round (score count total) 1)
  = float_round (float_mul (int_true_div count total) (float_of_int 100)) 1.
Proof.
  intros Ht. unfold score. apply Z.gtb_lt in Ht. now rewrite Ht.
Qed.

Lemma score_empty (count : Z) :
  float_field (py_round (score count 0) 1) = S754_zero false.
Proof. reflexivity. Qed.

Lemma score_full (n : Z) :
  (0 < n)%Z -> float_field (py_round (score n n) 1) = float_literal 100.
Proof.
  intros Hn. rewrite score_positive, int_true_div_same by assumption.
  vm_compute. reflexivity.
Qed.

(** The model against the machine's binary64 arithmetic on the values the
    examples below use. *)
#[local] Set Warnings "-inexact-float".

Example binary64_agrees_23_80 :
  Prim2SF (23 / 80 * 100)%float
  = float_mul (int_true_div 23 80) (float_of_int 100)
  /\ Prim2SF (2300 / 80)%float = int_true_div 2300 80
  /\ Prim2SF (2 / 3 * 100)%float
     = float_mul (int_true_div 2 3) (float_of_int 100)
  /\ Prim2SF 28.7%float = float_literal (287 # 10)
  /\ Prim2SF 28.8%float = float_literal (288 # 10)
  /\ Prim2SF 66.7%float = float_literal (667 # 10).
Proof. vm_compute. repeat split; reflexivity. Qed.

(** * The claims *)

(** ** C1: the contract of the word evaluator *)

(** C1. For every transcribed and expected string, [evaluate_words] returns
    one evaluation per word of the normalised expected string, in that
    string's word order; each is marked correct exactly when its word occurs
    among the words of the normalised transcription; and the result is empty
    when the expected string normalises to no word. *)
Theorem evaluate_words_contract (U : UnicodeData) (transcribed expected : pystr) :
  map word (evaluate_words U transcribed expected) = normalized_words U expected
  /\ (forall ev, In ev (evaluate_words U transcribed expected) ->
        (correct ev = true <-> In (word ev) (normalized_words U transcribed)))
  /\ (normalized_words U expected = [] -> evaluate_words U transcribed expected = []).
Proof.
  split; [|split].
  - apply evaluate_words_words.
  - intros ev Hev. exact (evaluate_words_correct U transcribed expected ev Hev).
  - apply evaluate_words_none.
Qed.

(** ** C4: the algorithm of the normaliser *)

(** C4. [normalize_text] lowercases the whole string, deletes every character
    that is not a letter, a number, an underscore, white space or an
    apostrophe, then collapses the runs of white space to single spaces and
    trims: it is the specification's [normalize_spec].  On
    ["Olá, como vai?"] it gives ["olá como vai"], and on the empty string the
    empty string. *)
Theorem normalize_text_algorithm (U : UnicodeData) :
  is_space U SPACE = true ->
  (forall s, normalize_text U s = normalize_spec U s)
  /\ normalize_text U [] = []
  /\ normalize_text Sample.ucd (u "Olá, como vai?") = u "olá como vai".
Proof.
  intros Hsp. split; [|split].
  - intros s. rewrite normalize_text_unfold. unfold normalize_spec.
    now apply join_split_trim.
  - reflexivity.
  - vm_compute. reflexivity.
Qed.

Lemma normalize_text_algorithm_witness :
  is_space Sample.ucd SPACE = true
  /\ normalize_text Sample.ucd (u "  Eu NÃO  entendo...  ")
     = normalize_spec Sample.ucd (u "  Eu NÃO  entendo...  ")
  /\ normalize_text Sample.ucd (u "  Eu NÃO  entendo...  ") = u "eu não entendo".
Proof.
  split; [reflexivity|]. split.
  - apply (normalize_text_algorithm Sample.ucd). reflexivity.
  - vm_compute. reflexivity.
Defined.

(** ** C5: idempotence *)

(** C5. The normaliser is idempotent: normalising a normalised string changes
    nothing, for every string. *)
Theorem normalize_text_is_idempotent (U : UnicodeData) (x : pystr) :
  UnicodeLaws U ->
  normalize_text U (normalize_text U x) = normalize_text U x.
Proof. intros laws. now apply normalize_text_idempotent. Qed.

Lemma normalize_text_is_idempotent_witness :
  UnicodeLaws Sample.ucd
  /\ normalize_text Sample.ucd (normalize_text Sample.ucd (u " Você  fala INGLÊS? "))
     = normalize_text Sample.ucd (u " Você  fala INGLÊS? ").
Proof.
  split; [exact sample_laws|].
  apply (normalize_text_is_idempotent Sample.ucd). exact sample_laws.
Defined.

(** ** C6: only the set of transcribed words matters *)

(** C6. The result of the word evaluator depends on the transcription only
    through the set of its normalised words: two transcriptions with the same
    words, in any order and any number of times, give the same evaluations,
    and a word that occurs once in the transcription makes every occurrence
    of it in the expected phrase correct.  ["Bom dia"] against ["dia bom"]
    gives two evaluations, both correct, and so does ["a a"] against ["a"]. *)
Theorem evaluation_depends_on_word_set :
  (forall U t1 t2 expected,
      (forall w, In w (normalized_words U t1) <-> In w (normalized_words U t2)) ->
      evaluate_words U t1 expected = evaluate_words U t2 expected)
  /\ (forall U t1 t2 expected,
        Permutation (normalized_words U t1) (normalized_words U t2) ->
        evaluate_words U t1 expected = evaluate_words U t2 expected)
  /\ (forall U t1 t2 expected,
        normalized_words U t2 = normalized_words U t1 ++ normalized_words U t1 ->
        evaluate_words U t1 expected = evaluate_words U t2 expected)
  /\ (forall U t expected ev,
        In ev (evaluate_words U t expected) ->
        In (word ev) (normalized_words U t) -> correct ev = true)
  /\ evaluate_words Sample.ucd (u "dia bom") (u "Bom dia")
     = [ {| word := u "bom"; correct := true |};
         {| word := u "dia"; correct := true |} ]
  /\ evaluate_words Sample.ucd (u "a") (u "a a")
     = [ {| word := u "a"; correct := true |};
         {| word := u "a"; correct := true |} ].
Proof.
  assert (Hset : forall U t1 t2 expected,
      (forall w, In w (normalized_words U t1) <-> In w (normalized_words U t2)) ->
      evaluate_words U t1 expected = evaluate_words U t2 expected).
  { intros U t1 t2 expected H. rewrite !evaluate_words_map.
    apply map_ext. intros w. f_equal.
    destruct (contains w (normalized_words U t1)) eqn:H1;
      destruct (contains w (normalized_words U t2)) eqn:H2; try reflexivity.
    - apply contains_In, H, contains_In in H1. congruence.
    - apply contains_In, H, contains_In in H2. congruence. }
  split; [exact Hset|]. split; [|split; [|split; [|split]]].
  - intros U t1 t2 expected HP. apply Hset. intros w. split; intros Hw.
    + exact (Permutation_in w HP Hw).
    + exact (Permutation_in w (Permutation_sym HP) Hw).
  - intros U t1 t2 expected Hdup. apply Hset. intros w. rewrite Hdup, in_app_iff.
    tauto.
  - intros U t expected ev Hev Hw.
    now apply (evaluate_words_correct U t expected ev Hev).
  - vm_compute. reflexivity.
  - vm_compute. reflexivity.
Qed.

Lemma evaluation_depends_on_word_set_witness :
  (forall w, In w (normalized_words Sample.ucd (u "dia, dia... BOM dia"))
         <-> In w (normalized_words Sample.ucd (u "bom dia")))
  /\ evaluate_words Sample.ucd (u "dia, dia... BOM dia") (u "Bom dia")
     = evaluate_words Sample.ucd (u "bom dia") (u "Bom dia").
Proof.
  assert (H : forall w, In w (normalized_words Sample.ucd (u "dia, dia... BOM dia"))
                    <-> In w (normalized_words Sample.ucd (u "bom dia"))).
  { intros w. vm_compute. tauto. }
  split; [exact H|].
  exact (proj1 evaluation_depends_on_word_set Sample.ucd _ _ _ H).
Defined.

(** ** C2: the overall score *)

(** C2, as stated, fails.  With twenty-three correct words out of eighty the
    percentage is 28.75: [round(100 * 23 / 80, 1)] is [28.8], in binary64 as
    in exact arithmetic, but the handler divides first, multiplies the
    rounded quotient by 100 and gets 28.749999999999996, which it rounds to
    [28.7]. *)
Lemma overall_score_differs_from_spec_formula :
  exists log r,
    transcribe_audio Sample.ucd (provider_says (u "a")) eighty_words = (log, inr r)
    /\ length (word_evaluations r) = 80%nat
    /\ count_correct (word_evaluations r) = 23%nat
    /\ overall_score r = float_literal (287 # 10)
    /\ spec_score 23 80 = float_literal (288 # 10)
    /\ exact_score 23 80 = float_literal (288 # 10)
    /\ overall_score r <> spec_score 23 80.
Proof.
  eexists. eexists. split; [vm_compute; reflexivity|].
  vm_compute. repeat split; try reflexivity. discriminate.
Qed.

(** C2, amended.  For every successful request, [overall_score] is
    [round(count / total * 100, 1)] computed in binary64 in that order (the
    quotient of the counts first, then the product, then the rounding) when
    there is at least one evaluation, and [0] when the expected phrase
    normalises to no word; two correct words out of three give [66.7]. *)
Theorem overall_score_formula (U : UnicodeData) (w : world) (expected : pystr)
    (log : list event) (r : TranscriptionResponse) :
  transcribe_audio U w expected = (log, inr r) ->
  let count := Z.of_nat (count_correct (word_evaluations r)) in
  let total := Z.of_nat (length (word_evaluations r)) in
  (word_evaluations r <> [] ->
     overall_score r
     = float_round (float_mul (int_true_div count total) (float_of_int 100)) 1)
  /\ (normalized_words U expected = [] -> overall_score r = S754_zero false)
  /\ (total = 3%Z -> count = 2%Z -> overall_score r = float_literal (667 # 10)).
Proof.
  intros H count total.
  destruct (transcribe_audio_inversion U w expected log r H)
    as (audio & t & _ & _ & _ & _ & _ & Hev & Hscore & _).
  fold count total in Hscore. split; [|split].
  - intros Hne. rewrite Hscore. apply score_positive.
    subst total. destruct (word_evaluations r); [contradiction | simpl; lia].
  - intros Hnone. rewrite Hscore. subst total.
    rewrite Hev, (evaluate_words_none U (text_of t) expected Hnone). reflexivity.
  - intros Ht Hc. rewrite Hscore, Ht, Hc. vm_compute. reflexivity.
Qed.

Lemma overall_score_formula_witness :
  exists log r,
    transcribe_audio Sample.ucd (provider_says (u "bom DIA")) (u "Bom dia, Maria!")
    = (log, inr r)
    /\ word_evaluations r <> []
    /\ overall_score r = float_literal (667 # 10).
Proof.
  eexists. eexists. split; [vm_compute; reflexivity|]. split; [discriminate|].
  refine (proj2 (proj2 (overall_score_formula Sample.ucd
            (provider_says (u "bom DIA")) (u "Bom dia, Maria!") _ _ _)) _ _);
    vm_compute; reflexivity.
Defined.

(** ** C3: containment *)

(** C3, as stated, fails on an expected phrase without words: every one of
    its (no) words is in the transcription and [all_correct] is true, but the
    score is [0], not [100.0]. *)
Lemma containment_without_words_scores_zero :
  exists log r,
    transcribe_audio Sample.ucd (provider_says (u "bom dia")) (u "?!") = (log, inr r)
    /\ (forall x, In x (normalized_words Sample.ucd (u "?!")) ->
                  In x (normalized_words Sample.ucd (transcribed_text r)))
    /\ all_correct r = true
    /\ overall_score r = S754_zero false
    /\ overall_score r <> float_literal 100.
Proof.
  eexists. eexists. split; [vm_compute; reflexivity|].
  split; [intros x Hx; vm_compute in Hx; contradiction|].
  vm_compute. repeat split; try reflexivity. discriminate.
Qed.

(** C3, amended.  For all expected phrases that normalise to at least one
    word and all transcriptions, if every normalised expected word is among
    the normalised transcribed words, the result has [all_correct] true and
    [overall_score] equal to [100.0]. *)
Theorem containment_gives_full_score (U : UnicodeData) (w : world)
    (expected : pystr) (log : list event) (r : TranscriptionResponse) :
  transcribe_audio U w expected = (log, inr r) ->
  normalized_words U expected <> [] ->
  (forall x, In x (normalized_words U expected) ->
             In x (normalized_words U (transcribed_text r))) ->
  all_correct r = true /\ overall_score r = float_literal 100.
Proof.
  intros H Hne Hall.
  destruct (transcribe_audio_inversion U w expected log r H)
    as (audio & t & _ & _ & _ & Htext & _ & Hev & Hscore & Hcorrect).
  assert (Hcount : count_correct (word_evaluations r) = length (word_evaluations r)).
  { apply count_correct_all. apply forallb_forall. intros ev Hin.
    rewrite Hev in Hin.
    apply (evaluate_words_correct U (text_of t) expected ev Hin).
    rewrite <- Htext. apply Hall.
    rewrite <- (evaluate_words_words U (text_of t) expected). now apply in_map. }
  rewrite Hcorrect, Hscore, Hcount. split; [apply Z.eqb_refl|].
  apply score_full.
  pose proof (evaluate_words_words U (text_of t) expected) as Hwords.
  rewrite Hev. destruct (evaluate_words U (text_of t) expected); [|simpl; lia].
  simpl in Hwords. congruence.
Qed.

Lemma containment_gives_full_score_witness :
  exists log r,
    transcribe_audio Sample.ucd (provider_says (u "Hum... dia, bom dia!")) (u "Bom dia")
    = (log, inr r)
    /\ all_correct r = true /\ overall_score r = float_literal 100.
Proof.
  eexists. eexists. split; [vm_compute; reflexivity|].
  refine (containment_gives_full_score Sample.ucd
            (provider_says (u "Hum... dia, bom dia!")) (u "Bom dia")
            [AudioRead; ProviderCall (request_for [82; 73; 70; 70])] _ _ _ _).
  - vm_compute. reflexivity.
  - vm_compute. discriminate.
  - intros x Hx. vm_compute in Hx. vm_compute. tauto.
Defined.

(** ** C7: [all_correct] *)

(** C7. For every successful request, [all_correct] is true if and only if
    every evaluation of the result is correct; when the expected phrase
    normalises to no word there is no evaluation, [all_correct] is true and
    the score is [0]. *)
Theorem all_correct_iff_every_word_correct (U : UnicodeData) (w : world)
    (expected : pystr) (log : list event) (r : TranscriptionResponse) :
  transcribe_audio U w expected = (log, inr r) ->
  (all_correct r = true <-> forall ev, In ev (word_evaluations r) -> correct ev = true)
  /\ (normalized_words U expected = [] ->
        word_evaluations r = [] /\ all_correct r = true
        /\ overall_score r = S754_zero false).
Proof.
  intros H.
  destruct (transcribe_audio_inversion U w expected log r H)
    as (audio & t & _ & _ & _ & _ & _ & Hev & Hscore & Hcorrect).
  split.
  - rewrite Hcorrect, Z.eqb_eq, Nat2Z.inj_iff, count_correct_all.
    apply forallb_forall.
  - intros Hnone.
    assert (Hnil : word_evaluations r = [])
      by (rewrite Hev; exact (evaluate_words_none U (text_of t) expected Hnone)).
    rewrite Hcorrect, Hscore, Hnil. repeat split; reflexivity.
Qed.

Lemma all_correct_iff_every_word_correct_witness :
  exists log r,
    transcribe_audio Sample.ucd (provider_says (u "boa tarde")) (u "Boa noite")
    = (log, inr r)
    /\ (all_correct r = true
        <-> forall ev, In ev (word_evaluations r) -> correct ev = true)
    /\ all_correct r = false.
Proof.
  eexists. eexists. split; [vm_compute; reflexivity|]. split.
  - refine (proj1 (all_correct_iff_every_word_correct Sample.ucd
              (provider_says (u "boa tarde")) (u "Boa noite") _ _ _));
      vm_compute; reflexivity.
  - vm_compute. reflexivity.
Defined.

(** ** C8: the phrase catalogue *)

Lemma find_phrase_found (phrases : list Phrase) (p : Phrase) :
  NoDup (map id phrases) -> In p phrases -> find_phrase phrases (id p) = inr p.
Proof.
  induction phrases as [|q rest IH]; intros Hnd Hin; [contradiction|].
  simpl in Hnd. apply NoDup_cons_iff in Hnd. destruct Hnd as [Hq Hnd]. simpl.
  destruct Hin as [->|Hin].
  - now rewrite Z.eqb_refl.
  - destruct (Z.eqb_spec (id q) (id p)) as [E|_]; [|now apply IH].
    exfalso. apply Hq. rewrite E. now apply in_map.
Qed.

Lemma find_phrase_missing (phrases : list Phrase) (i : Z) :
  (forall p, In p phrases -> id p <> i) ->
  find_phrase phrases i = inl {| status_code := 404; detail := u "Phrase not found" |}.
Proof.
  induction phrases as [|q rest IH]; intros H; [reflexivity|]. simpl.
  destruct (Z.eqb_spec (id q) i) as [E|_].
  - exfalso. exact (H q (or_introl eq_refl) E).
  - apply IH. intros p Hp. apply H. now right.
Qed.

Lemma same_id_same_phrase (phrases : list Phrase) (p q : Phrase) :
  NoDup (map id phrases) -> In p phrases -> In q phrases -> id q = id p -> q = p.
Proof.
  intros Hnd Hp Hq E. pose proof (find_phrase_found phrases p Hnd Hp) as F1.
  pose proof (find_phrase_found phrases q Hnd Hq) as F2. rewrite E in F2.
  congruence.
Qed.

Lemma catalogue_ids : map id PORTUGUESE_PHRASES = [1; 2; 3; 4; 5; 6; 7; 8; 9; 10]%Z.
Proof. reflexivity. Qed.

Lemma catalogue_ids_distinct : NoDup (map id PORTUGUESE_PHRASES).
Proof.
  rewrite catalogue_ids.
  repeat (constructor; [simpl; intros H; repeat destruct H as [H|H]; discriminate H || exact H|]).
  constructor.
Qed.

(** C8. [get_phrases] returns the whole catalogue in the order it is written;
    [get_phrase] returns, for every id, the one phrase of the catalogue with
    that id when there is one and raises 404 "Phrase not found" otherwise, as
    it does for id 999. *)
Theorem phrase_catalogue_lookup :
  get_phrases = PORTUGUESE_PHRASES
  /\ map id get_phrases = [1; 2; 3; 4; 5; 6; 7; 8; 9; 10]%Z
  /\ (forall p, In p PORTUGUESE_PHRASES ->
        get_phrase (id p) = inr p
        /\ forall q, In q PORTUGUESE_PHRASES -> id q = id p -> q = p)
  /\ (forall i, (forall p, In p PORTUGUESE_PHRASES -> id p <> i) ->
        get_phrase i = inl {| status_code := 404; detail := u "Phrase not found" |})
  /\ get_phrase 999 = inl {| status_code := 404; detail := u "Phrase not found" |}.
Proof.
  split; [reflexivity|]. split; [exact catalogue_ids|]. split; [|split].
  - intros p Hp. split.
    + exact (find_phrase_found _ p catalogue_ids_distinct Hp).
    + intros q Hq E. exact (same_id_same_phrase _ p q catalogue_ids_distinct Hp Hq E).
  - intros i H. exact (find_phrase_missing _ i H).
  - reflexivity.
Qed.

Lemma phrase_catalogue_lookup_witness :
  In {| id := 2; phrase := u "Bom dia"; translation := u "Good morning" |}
     PORTUGUESE_PHRASES
  /\ get_phrase 2
     = inr {| id := 2; phrase := u "Bom dia"; translation := u "Good morning" |}
  /\ (forall p, In p PORTUGUESE_PHRASES -> id p <> 0%Z)
  /\ get_phrase 0 = inl {| status_code := 404; detail := u "Phrase not found" |}.
Proof.
  assert (H2 : In {| id := 2; phrase := u "Bom dia"; translation := u "Good morning" |}
                  PORTUGUESE_PHRASES) by (right; left; reflexivity).
  assert (H0 : forall p, In p PORTUGUESE_PHRASES -> id p <> 0%Z).
  { intros p Hp. apply (in_map id) in Hp. rewrite catalogue_ids in Hp.
    simpl in Hp. intros E. rewrite E in Hp.
    repeat destruct Hp as [Hp|Hp]; discriminate Hp || exact Hp. }
  split; [exact H2|]. split; [|split; [exact H0|]].
  - exact (proj1 (proj1 (proj2 (proj2 phrase_catalogue_lookup)) _ H2)).
  - exact (proj1 (proj2 (proj2 (proj2 phrase_catalogue_lookup))) 0%Z H0).
Defined.

(** ** C9: failures *)



(** ** C10: the words of the result *)

(** C10, as stated, fails: lowercasing leaves an uppercase letter that has no
    lowercase form where it is.  U+2102 is such a letter, so the expected
    phrase ["ℂ"] is evaluated to the word ["ℂ"], which holds an uppercase
    letter. *)
Lemma evaluated_word_with_uppercase_letter :
  UnicodeLaws Sample.ucd
  /\ u "ℂ" = [DOUBLE_STRUCK_C]
  /\ evaluate_words Sample.ucd (u "bom dia") (u "ℂ")
     = [ {| word := [DOUBLE_STRUCK_C]; correct := false |} ]
  /\ is_letter Sample.ucd DOUBLE_STRUCK_C = true
  /\ is_upper Sample.ucd DOUBLE_STRUCK_C = true
  /\ ~ (forall ev c,
          In ev (evaluate_words Sample.ucd (u "bom dia") (u "ℂ")) ->
          In c (word ev) -> is_upper Sample.ucd c = false).
Proof.
  split; [exact sample_laws|]. repeat split; try (vm_compute; reflexivity).
  intros H.
  specialize (H {| word := [DOUBLE_STRUCK_C]; correct := false |} DOUBLE_STRUCK_C).
  assert (E : is_upper Sample.ucd DOUBLE_STRUCK_C = false).
  { apply H; vm_compute; now left. }
  vm_compute in E. discriminate E.
Qed.

(** C10, amended.  For every transcribed and expected string, each word of
    the result is a fixed point of normalisation: lowercasing changes none of
    its characters, none is white space, each is a letter, a number, an
    underscore or an apostrophe, and the word is not empty.  (A letter that
    lowercasing does not change may still be an uppercase one.) *)
Theorem evaluated_words_are_canonical (U : UnicodeData)
    (transcribed expected : pystr) (ev : WordEvaluation) :
  UnicodeLaws U ->
  In ev (evaluate_words U transcribed expected) ->
  normalize_text U (word ev) = word ev
  /\ word ev <> []
  /\ str_lower U (word ev) = word ev
  /\ forall c, In c (word ev) ->
       lower_stable U c
       /\ is_space U c = false
       /\ is_letter U c || is_number U c || (c =? UNDERSCORE) || (c =? APOSTROPHE)
          = true.
Proof.
  intros laws Hev. rewrite evaluate_words_map in Hev. apply in_map_iff in Hev.
  destruct Hev as [w [<- Hw]]. simpl. unfold normalized_words in Hw.
  pose proof (str_split_words U (normalize_text U expected)) as Hwords.
  rewrite Forall_forall in Hwords. destruct (Hwords w Hw) as [Hne Hns].
  rewrite Forall_forall in Hns.
  assert (Hcan : forall c, In c w -> canonical_char U c).
  { intros c Hc. rewrite (split_normalize_text U laws) in Hw.
    exact (words_of_canonical U laws expected w c Hw Hc). }
  split; [exact (normalize_word U laws expected w Hw)|]. split; [exact Hne|]. split.
  - unfold str_lower. apply do_lower_stable. apply Forall_forall.
    intros c Hc. exact (proj1 (Hcan c Hc)).
  - intros c Hc. destruct (Hcan c Hc) as [Hl Hs]. pose proof (Hns c Hc) as Hn.
    unfold nonspace in Hn. split; [exact Hl|]. split; [exact Hn|].
    unfold survives in Hs. rewrite Hn in Hs.
    destruct (is_letter U c), (is_number U c), (c =? UNDERSCORE), (c =? APOSTROPHE);
      simpl in *; congruence.
Qed.

Lemma evaluated_words_are_canonical_witness :
  UnicodeLaws Sample.ucd
  /\ In {| word := u "d'água"; correct := true |}
        (evaluate_words Sample.ucd (u "um copo d'água") (u "Copo D'ÁGUA!"))
  /\ normalize_text Sample.ucd (u "d'água") = u "d'água".
Proof.
  assert (Hin : In {| word := u "d'água"; correct := true |}
                   (evaluate_words Sample.ucd (u "um copo d'água") (u "Copo D'ÁGUA!")))
    by (vm_compute; right; left; reflexivity).
  split; [exact sample_laws|]. split; [exact Hin|].
  exact (proj1 (evaluated_words_are_canonical Sample.ucd _ _ _ sample_laws Hin)).
Defined.

(** * Further properties of the code *)

(** ** The shape of normalised text *)
Section NormalizedShape.

Variable U : UnicodeData.
Hypothesis space_white : is_space U SPACE = true.

Lemma rstrip_cons (c : codepoint) (s : pystr) :
  rstrip U (c :: s)
  = match rstrip U s with
    | [] => if is_space U c then [] else [c]
    | _ :: _ => c :: rstrip U s
    end.
Proof. simpl. now destruct (rstrip U s). Qed.

Lemma rstrip_idempotent (s : pystr) : rstrip U (rstrip U s) = rstrip U s.
Proof.
  induction s as [|c s IH]; [reflexivity|]. rewrite rstrip_cons.
  destruct (rstrip U s) as [|d r] eqn:E.
  - destruct (is_space U c) eqn:Hc; [reflexivity|].
    rewrite rstrip_cons. simpl. now rewrite Hc.
  - rewrite rstrip_cons, IH. reflexivity.
Qed.

Lemma lstrip_join (ws : list pystr) :
  Forall (is_word U) ws -> lstrip U (str_join [SPACE] ws) = str_join [SPACE] ws.
Proof.
  intros Hws. destruct ws as [|w ws]; [reflexivity|].
  apply Forall_inv in Hws. destruct Hws as [Hne Hns].
  destruct w as [|c w]; [contradiction|].
  apply Forall_inv in Hns. unfold nonspace in Hns.
  destruct ws; simpl; now rewrite Hns.
Qed.

Lemma collapse_word (w rest : pystr) (in_run : bool) :
  w <> [] -> Forall (nonspace U) w ->
  collapse_whitespace U in_run (w ++ rest) = w ++ collapse_whitespace U false rest.
Proof.
  revert in_run. induction w as [|c w IH]; intros in_run Hne Hns; [contradiction|].
  apply Forall_cons_iff in Hns. destruct Hns as [Hc Hns]. unfold nonspace in Hc.
  simpl. rewrite Hc. f_equal. destruct w as [|d w]; [reflexivity|].
  apply IH; [discriminate | assumption].
Qed.

Lemma collapse_join (ws : list pystr) (in_run : bool) :
  Forall (is_word U) ws -> ws <> [] ->
  collapse_whitespace U in_run (str_join [SPACE] ws) = str_join [SPACE] ws.
Proof.
  revert in_run. induction ws as [|w ws IH]; intros in_run Hws Hne; [contradiction|].
  apply Forall_cons_iff in Hws. destruct Hws as [[Hw Hns] Hws].
  destruct ws as [|w' ws].
  - simpl. rewrite <- (app_nil_r w) at 1. rewrite collapse_word by assumption.
    simpl. apply app_nil_r.
  - rewrite str_join_cons, collapse_word by assumption. f_equal.
    change ([SPACE] ++ str_join [SPACE] (w' :: ws))
      with (SPACE :: str_join [SPACE] (w' :: ws)).
    simpl collapse_whitespace. rewrite space_white. simpl. f_equal.
    apply IH; [assumption | discriminate].
Qed.

End NormalizedShape.

(** X1. Normalised text is trimmed and collapsed: stripping it on either
    side or collapsing its white space changes nothing, its only white space
    characters are single U+0020, and splitting it and joining the words
    with a space gives it back. *)
Theorem normalized_text_is_trimmed_and_collapsed (U : UnicodeData) (s : pystr) :
  is_space U SPACE = true ->
  lstrip U (normalize_text U s) = normalize_text U s
  /\ rstrip U (normalize_text U s) = normalize_text U s
  /\ collapse_whitespace U false (normalize_text U s) = normalize_text U s
  /\ (forall c, In c (normalize_text U s) -> is_space U c = true -> c = SPACE)
  /\ str_join [SPACE] (str_split U (normalize_text U s)) = normalize_text U s.
Proof.
  intros Hsp. rewrite normalize_text_unfold.
  set (ws := str_split U (filter (survives U) (str_lower U s))).
  assert (Hws : Forall (is_word U) ws) by apply str_split_words.
  split; [now apply lstrip_join|]. split; [|split; [|split]].
  - pose proof (join_split_trim U Hsp (str_join [SPACE] ws)) as E.
    rewrite (split_join U ws Hsp Hws) in E. unfold trim in E.
    rewrite E. apply rstrip_idempotent.
  - destruct ws as [|w ws']; [reflexivity|].
    apply (collapse_join U Hsp); [assumption | discriminate].
  - intros c Hc Hspace. apply str_join_chars in Hc.
    destruct Hc as [->|[w [Hw Hc]]]; [reflexivity|].
    rewrite Forall_forall in Hws. destruct (Hws w Hw) as [_ Hns].
    rewrite Forall_forall in Hns. specialize (Hns c Hc). unfold nonspace in Hns.
    congruence.
  - now rewrite (split_join U ws Hsp Hws).
Qed.

Lemma normalized_text_is_trimmed_and_collapsed_witness :
  is_space Sample.ucd SPACE = true
  /\ normalize_text Sample.ucd (u "  Até   logo!  ") = u "até logo"
  /\ rstrip Sample.ucd (normalize_text Sample.ucd (u "  Até   logo!  "))
     = normalize_text Sample.ucd (u "  Até   logo!  ").
Proof.
  split; [reflexivity|]. split; [vm_compute; reflexivity|].
  exact (proj1 (proj2 (normalized_text_is_trimmed_and_collapsed Sample.ucd
                         (u "  Até   logo!  ") eq_refl))).
Defined.

(** ** Normalising before evaluating *)

(** X2. The evaluator sees its arguments only through their normal forms:
    evaluating already normalised strings gives the result of evaluating the
    raw ones. *)
Theorem evaluate_words_of_normalized (U : UnicodeData) (transcribed expected : pystr) :
  UnicodeLaws U ->
  evaluate_words U (normalize_text U transcribed) (normalize_text U expected)
  = evaluate_words U transcribed expected.
Proof.
  intros laws. rewrite !evaluate_words_map. unfold normalized_words.
  now rewrite !(normalize_text_idempotent U laws).
Qed.

Lemma evaluate_words_of_normalized_witness :
  UnicodeLaws Sample.ucd
  /\ evaluate_words Sample.ucd (normalize_text Sample.ucd (u "BOA noite!!"))
       (normalize_text Sample.ucd (u " Boa  Noite. "))
     = evaluate_words Sample.ucd (u "BOA noite!!") (u " Boa  Noite. ").
Proof.
  split; [exact sample_laws|].
  exact (evaluate_words_of_normalized Sample.ucd _ _ sample_laws).
Defined.

(** ** Phrases joined by a space *)
Section JoinedPhrases.

Variable U : UnicodeData.
Hypothesis laws : UnicodeLaws U.
Hypothesis space_not_ignorable : is_case_ignorable U SPACE = false.
Hypothesis space_not_cased : is_cased U SPACE = false.

Lemma skip_case_ignorable_app_space (a x : pystr) :
  skip_case_ignorable U (a ++ SPACE :: x) = skip_case_ignorable U a ++ SPACE :: x.
Proof.
  induction a as [|c a IH]; simpl.
  - now rewrite space_not_ignorable.
  - destruct (is_case_ignorable U c); [exact IH | reflexivity].
Qed.

(** What follows a space does not decide the form of a sigma. *)
Lemma sigma_after_space (before after x : pystr) :
  handle_capital_sigma U before (after ++ SPACE :: x)
  = handle_capital_sigma U before after.
Proof.
  unfold handle_capital_sigma. rewrite skip_case_ignorable_app_space.
  destruct (skip_case_ignorable U before) as [|c ?]; [reflexivity|].
  destruct (is_cased U c); [|reflexivity].
  destruct (skip_case_ignorable U after) as [|d ?]; simpl; [|reflexivity].
  now rewrite space_not_cased.
Qed.

(** Nor does what precedes a space. *)
Lemma sigma_before_space (before y after : pystr) :
  handle_capital_sigma U (before ++ SPACE :: y) after
  = handle_capital_sigma U before after.
Proof.
  unfold handle_capital_sigma. rewrite skip_case_ignorable_app_space.
  destruct (skip_case_ignorable U before) as [|c ?]; simpl; [|reflexivity].
  now rewrite space_not_cased.
Qed.

Lemma do_lower_before_space (s before y : pystr) :
  do_lower U (before ++ SPACE :: y) s = do_lower U before s.
Proof.
  revert before. induction s as [|c s IH]; intros before; [reflexivity|].
  simpl. unfold lower_ucs4. rewrite sigma_before_space. f_equal.
  exact (IH (c :: before)).
Qed.

Lemma do_lower_app_space (s1 s2 before : pystr) :
  do_lower U before (s1 ++ SPACE :: s2)
  = do_lower U before s1 ++ SPACE :: do_lower U [] s2.
Proof.
  revert before. induction s1 as [|c s1 IH]; intros before.
  - simpl. unfold lower_ucs4. simpl. rewrite (space_is_uncased U laws). simpl.
    f_equal. exact (do_lower_before_space s2 [] before).
  - simpl. unfold lower_ucs4. rewrite sigma_after_space, IH.
    now rewrite app_assoc.
Qed.

Lemma split_from_app_space (a b tok : pystr) :
  split_from U tok (a ++ SPACE :: b) = split_from U tok a ++ split_from U [] b.
Proof.
  revert tok. induction a as [|c a IH]; intros tok.
  - simpl. rewrite (space_is_space U laws). now destruct tok.
  - simpl. destruct (is_space U c); [|apply IH].
    rewrite IH. now destruct tok.
Qed.

Lemma words_of_app_space (s1 s2 : pystr) :
  words_of U (s1 ++ SPACE :: s2) = words_of U s1 ++ words_of U s2.
Proof.
  unfold words_of, str_lower, str_split. rewrite do_lower_app_space, filter_app.
  simpl. destruct (space_canonical U laws) as [_ Hs]. rewrite Hs.
  apply split_from_app_space.
Qed.

Lemma normalized_words_app_space (s1 s2 : pystr) :
  normalized_words U (s1 ++ SPACE :: s2)
  = normalized_words U s1 ++ normalized_words U s2.
Proof.
  unfold normalized_words. rewrite !(split_normalize_text U laws).
  apply words_of_app_space.
Qed.

End JoinedPhrases.

(** X3. Evaluation goes phrase by phrase: the evaluation of two expected
    phrases joined by a space is the evaluation of the first followed by the
    evaluation of the second, and a word is correct against two
    transcriptions joined by a space exactly when it is against one of
    them. *)
Theorem evaluation_of_joined_phrases (U : UnicodeData)
    (transcribed t1 t2 e1 e2 : pystr) :
  UnicodeLaws U ->
  is_case_ignorable U SPACE = false ->
  is_cased U SPACE = false ->
  evaluate_words U transcribed (e1 ++ [SPACE] ++ e2)
  = evaluate_words U transcribed e1 ++ evaluate_words U transcribed e2
  /\ map correct (evaluate_words U (t1 ++ [SPACE] ++ t2) e1)
     = map (fun p => orb (fst p) (snd p))
         (combine (map correct (evaluate_words U t1 e1))
                  (map correct (evaluate_words U t2 e1))).
Proof.
  intros laws Hci Hcased. split.
  - rewrite !evaluate_words_map.
    change (e1 ++ [SPACE] ++ e2) with (e1 ++ SPACE :: e2).
    rewrite (normalized_words_app_space U laws Hci Hcased). apply map_app.
  - rewrite !evaluate_words_map.
    change (t1 ++ [SPACE] ++ t2) with (t1 ++ SPACE :: t2).
    rewrite (normalized_words_app_space U laws Hci Hcased).
    induction (normalized_words U e1) as [|w ws IH]; [reflexivity|].
    simpl. rewrite IH. f_equal. unfold contains. apply existsb_app.
Qed.

Lemma evaluation_of_joined_phrases_witness :
  UnicodeLaws Sample.ucd
  /\ evaluate_words Sample.ucd (u "bom dia") (u "Bom dia," ++ [SPACE] ++ u "Maria!")
     = evaluate_words Sample.ucd (u "bom dia") (u "Bom dia,")
       ++ evaluate_words Sample.ucd (u "bom dia") (u "Maria!").
Proof.
  split; [exact sample_laws|].
  exact (proj1 (evaluation_of_joined_phrases Sample.ucd (u "bom dia") [] []
                  (u "Bom dia,") (u "Maria!") sample_laws eq_refl eq_refl)).
Defined.

(** ** What the transcription contributes *)

Lemma int_true_div_zero (n : Z) : int_true_div 0 n = S754_zero false.
Proof.
  unfold int_true_div.
  rewrite (nearest_float_Qeq (0 # Z.to_pos n) 0); [reflexivity|].
  unfold Qeq. reflexivity.
Qed.

Lemma score_of_nothing (total : Z) :
  float_field (py_round (score 0 total) 1) = S754_zero false.
Proof.
  unfold score. destruct (total >? 0)%Z; [|reflexivity].
  rewrite int_true_div_zero. reflexivity.
Qed.

Lemma count_correct_none (evals : list WordEvaluation) :
  (forall ev, In ev evals -> correct ev = false) -> count_correct evals = 0%nat.
Proof.
  unfold count_correct. induction evals as [|ev evals IH]; intros H; [reflexivity|].
  simpl. rewrite (H ev (or_introl eq_refl)). apply IH.
  intros ev' Hin. apply H. now right.
Qed.

(** X4. When the provider recognises no word (silence, or punctuation only),
    every expected word is marked incorrect, the score is [0], and
    [all_correct] is true only if the expected phrase has no word either. *)
Theorem unrecognised_transcription_scores_zero (U : UnicodeData) (w : world)
    (expected : pystr) (log : list event) (r : TranscriptionResponse) :
  transcribe_audio U w expected = (log, inr r) ->
  normalized_words U (transcribed_text r) = [] ->
  (forall ev, In ev (word_evaluations r) -> correct ev = false)
  /\ overall_score r = S754_zero false
  /\ (all_correct r = true <-> normalized_words U expected = []).
Proof.
  intros H Hnone.
  destruct (transcribe_audio_inversion U w expected log r H)
    as (audio & t & _ & _ & _ & Htext & _ & Hev & Hscore & Hcorrect).
  assert (Hfalse : forall ev, In ev (word_evaluations r) -> correct ev = false).
  { intros ev Hin. rewrite Hev in Hin.
    destruct (correct ev) eqn:E; [|reflexivity].
    apply (evaluate_words_correct U (text_of t) expected ev Hin) in E.
    rewrite <- Htext, Hnone in E. contradiction. }
  pose proof (count_correct_none _ Hfalse) as Hzero.
  split; [exact Hfalse|]. split.
  - rewrite Hscore, Hzero. apply score_of_nothing.
  - rewrite Hcorrect, Hzero, Z.eqb_eq.
    rewrite <- (evaluate_words_words U (text_of t) expected), <- Hev.
    destruct (word_evaluations r); simpl; split; intros E;
      try reflexivity; try discriminate E; lia.
Qed.

Lemma unrecognised_transcription_scores_zero_witness :
  exists log r,
    transcribe_audio Sample.ucd (provider_says (u "...")) (u "Por favor") = (log, inr r)
    /\ overall_score r = S754_zero false
    /\ all_correct r = false.
Proof.
  eexists. eexists. split; [vm_compute; reflexivity|]. split.
  - refine (proj1 (proj2 (unrecognised_transcription_scores_zero Sample.ucd
              (provider_says (u "...")) (u "Por favor") _ _ _ _)));
      vm_compute; reflexivity.
  - vm_compute. reflexivity.
Defined.

(** X5. Recognising more never hurts: if every word of one transcription is
    also a word of another, each expected word correct against the first is
    correct against the second, and the count of correct words does not
    decrease. *)
Theorem more_words_never_hurt (U : UnicodeData) (t1 t2 expected : pystr) :
  (forall w, In w (normalized_words U t1) -> In w (normalized_words U t2)) ->
  Forall2 (fun a b => word a = word b /\ (correct a = true -> correct b = true))
    (evaluate_words U t1 expected) (evaluate_words U t2 expected)
  /\ (count_correct (evaluate_words U t1 expected)
      <= count_correct (evaluate_words U t2 expected))%nat.
Proof.
  intros Hincl. rewrite !evaluate_words_map. unfold count_correct.
  induction (normalized_words U expected) as [|x xs [IH1 IH2]]; simpl.
  - split; [constructor | lia].
  - assert (Hx : contains x (normalized_words U t1) = true ->
                 contains x (normalized_words U t2) = true).
    { intros E. apply contains_In. apply Hincl. now apply contains_In. }
    split; [constructor; [split; [reflexivity | exact Hx] | exact IH1]|].
    destruct (contains x (normalized_words U t1)).
    + rewrite (Hx eq_refl). simpl. lia.
    + destruct (contains x (normalized_words U t2)); simpl; lia.
Qed.

Lemma more_words_never_hurt_witness :
  (forall w, In w (normalized_words Sample.ucd (u "muito"))
             -> In w (normalized_words Sample.ucd (u "muito muito prazer")))
  /\ (count_correct (evaluate_words Sample.ucd (u "muito") (u "Muito prazer"))
      <= count_correct (evaluate_words Sample.ucd (u "muito muito prazer")
                          (u "Muito prazer")))%nat.
Proof.
  assert (H : forall w, In w (normalized_words Sample.ucd (u "muito"))
                        -> In w (normalized_words Sample.ucd (u "muito muito prazer"))).
  { intros w. vm_compute. tauto. }
  split; [exact H|].
  exact (proj2 (more_words_never_hurt Sample.ucd _ _ (u "Muito prazer") H)).
Defined.

(** ** The order of the expected words *)

Lemma count_correct_permutation (l l' : list WordEvaluation) :
  Permutation l l' -> count_correct l = count_correct l'.
Proof.
  unfold count_correct. induction 1 as [|x l l' _ IH|x y l|l l' l'' _ IH1 _ IH2];
    simpl; try reflexivity.
  - destruct (correct x); simpl; now rewrite IH.
  - destruct (correct x), (correct y); reflexivity.
  - now rewrite IH1.
Qed.

(** X6. The order of the expected words changes the order of the
    evaluations and nothing else: two requests with the same transcription
    whose expected phrases have the same words in another order get the same
    evaluations up to order, the same score and the same [all_correct]. *)
Theorem expected_word_order_is_irrelevant (U : UnicodeData) (w1 w2 : world)
    (e1 e2 : pystr) (log1 log2 : list event) (r1 r2 : TranscriptionResponse) :
  transcribe_audio U w1 e1 = (log1, inr r1) ->
  transcribe_audio U w2 e2 = (log2, inr r2) ->
  transcribed_text r1 = transcribed_text r2 ->
  Permutation (normalized_words U e1) (normalized_words U e2) ->
  Permutation (word_evaluations r1) (word_evaluations r2)
  /\ overall_score r1 = overall_score r2
  /\ all_correct r1 = all_correct r2.
Proof.
  intros H1 H2 Htext Hperm.
  destruct (transcribe_audio_inversion U w1 e1 log1 r1 H1)
    as (a1 & t1 & _ & _ & _ & Ht1 & _ & Hev1 & Hs1 & Hc1).
  destruct (transcribe_audio_inversion U w2 e2 log2 r2 H2)
    as (a2 & t2 & _ & _ & _ & Ht2 & _ & Hev2 & Hs2 & Hc2).
  assert (HP : Permutation (word_evaluations r1) (word_evaluations r2)).
  { rewrite Hev1, Hev2, <- Ht1, <- Ht2, Htext, !evaluate_words_map.
    now apply Permutation_map. }
  split; [exact HP|].
  rewrite Hs1, Hs2, Hc1, Hc2.
  rewrite (count_correct_permutation _ _ HP), (Permutation_length HP).
  split; reflexivity.
Qed.

Lemma expected_word_order_is_irrelevant_witness :
  exists log1 log2 r1 r2,
    transcribe_audio Sample.ucd (provider_says (u "eu entendo")) (u "Eu não entendo")
    = (log1, inr r1)
    /\ transcribe_audio Sample.ucd (provider_says (u "eu entendo")) (u "entendo, não EU")
       = (log2, inr r2)
    /\ overall_score r1 = overall_score r2
    /\ overall_score r1 = float_literal (667 # 10).
Proof.
  eexists. eexists. eexists. eexists.
  split; [vm_compute; reflexivity|]. split; [vm_compute; reflexivity|]. split.
  - refine (proj1 (proj2 (expected_word_order_is_irrelevant Sample.ucd
              (provider_says (u "eu entendo")) (provider_says (u "eu entendo"))
              (u "Eu não entendo") (u "entendo, não EU") _ _ _ _ _ _ _ _)));
      try (vm_compute; reflexivity).
    exact (Permutation_rev (normalized_words Sample.ucd (u "Eu não entendo"))).
  - vm_compute. reflexivity.
Defined.

(** ** The range of the score *)

Lemma int_true_div_proportion (c1 n1 c2 n2 : Z) :
  (0 < n1)%Z -> (0 < n2)%Z -> (c1 * n2 = c2 * n1)%Z ->
  int_true_div c1 n1 = int_true_div c2 n2.
Proof.
  intros H1 H2 E. unfold int_true_div. apply nearest_float_Qeq.
  unfold Qeq. simpl. rewrite !Z2Pos.id by assumption. exact E.
Qed.

(** X7. The score depends on the counts only through the proportion of
    correct words: two results with at least one evaluation each and the
    same proportion (say 1 of 2 and 40 of 80) have the same score. *)
Theorem score_depends_on_proportion (U : UnicodeData) (w1 w2 : world)
    (e1 e2 : pystr) (log1 log2 : list event) (r1 r2 : TranscriptionResponse) :
  transcribe_audio U w1 e1 = (log1, inr r1) ->
  transcribe_audio U w2 e2 = (log2, inr r2) ->
  word_evaluations r1 <> [] ->
  word_evaluations r2 <> [] ->
  (count_correct (word_evaluations r1) * length (word_evaluations r2)
   = count_correct (word_evaluations r2) * length (word_evaluations r1))%nat ->
  overall_score r1 = overall_score r2.
Proof.
  intros H1 H2 Hne1 Hne2 E.
  destruct (transcribe_audio_inversion U w1 e1 log1 r1 H1)
    as (_ & _ & _ & _ & _ & _ & _ & _ & Hs1 & _).
  destruct (transcribe_audio_inversion U w2 e2 log2 r2 H2)
    as (_ & _ & _ & _ & _ & _ & _ & _ & Hs2 & _).
  assert (L1 : (0 < Z.of_nat (length (word_evaluations r1)))%Z)
    by (destruct (word_evaluations r1); [contradiction | simpl; lia]).
  assert (L2 : (0 < Z.of_nat (length (word_evaluations r2)))%Z)
    by (destruct (word_evaluations r2); [contradiction | simpl; lia]).
  rewrite Hs1, Hs2, !score_positive by assumption.
  rewrite (int_true_div_proportion
             (Z.of_nat (count_correct (word_evaluations r1))) _
             (Z.of_nat (count_correct (word_evaluations r2))) _ L1 L2);
    [reflexivity|].
  rewrite <- !Nat2Z.inj_mul. now f_equal.
Qed.

Lemma score_depends_on_proportion_witness :
  exists log1 log2 r1 r2,
    transcribe_audio Sample.ucd (provider_says (u "boa")) (u "Boa noite") = (log1, inr r1)
    /\ transcribe_audio Sample.ucd (provider_says (u "a b")) (u "a, b, c, d") = (log2, inr r2)
    /\ overall_score r1 = overall_score r2
    /\ overall_score r2 = float_literal 50.
Proof.
  eexists. eexists. eexists. eexists.
  split; [vm_compute; reflexivity|]. split; [vm_compute; reflexivity|]. split.
  - refine (score_depends_on_proportion Sample.ucd
              (provider_says (u "boa")) (provider_says (u "a b"))
              (u "Boa noite") (u "a, b, c, d") _ _ _ _ _ _ _ _ _);
      try (vm_compute; reflexivity); vm_compute; discriminate.
  - vm_compute. reflexivity.
Defined.

Lemma spec_float_eqb_eq (a b : spec_float) : spec_float_eqb a b = true -> a = b.
Proof.
  destruct a as [s|s| |s m e], b as [t|t| |t n f]; simpl; try discriminate.
  - intros H. apply Bool.eqb_prop in H. now subst.
  - intros H. apply Bool.eqb_prop in H. now subst.
  - reflexivity.
  - rewrite !andb_true_iff. intros [[H1 H2] H3].
    apply Bool.eqb_prop in H1. apply Pos.eqb_eq in H2. apply Z.eqb_eq in H3.
    now subst.
Qed.

Lemma scores_are_decimal_sound (bound c n : nat) :
  scores_are_decimal bound = true ->
  (1 <= n <= bound)%nat -> (c <= n)%nat ->
  score_is_decimal (Z.of_nat c) (Z.of_nat n) = true.
Proof.
  unfold scores_are_decimal. intros H Hn Hc. rewrite forallb_forall in H.
  specialize (H n). rewrite forallb_forall in H.
  apply H; apply in_seq; lia.
Qed.

Lemma scores_are_decimal_100 : scores_are_decimal 100 = true.
Proof. vm_compute. reflexivity. Qed.

Lemma score_is_decimal_up_to_100 (c n : nat) :
  (1 <= n <= 100)%nat -> (c <= n)%nat ->
  score_is_decimal (Z.of_nat c) (Z.of_nat n) = true.
Proof. exact (scores_are_decimal_sound 100 c n scores_are_decimal_100). Qed.

(** X8. For an expected phrase of at most one hundred words the score is a
    percentage with one decimal: it is the float written [k/10] for an
    integer [k] between 0 and 1000. *)
Theorem overall_score_is_a_percentage (U : UnicodeData) (w : world)
    (expected : pystr) (log : list event) (r : TranscriptionResponse) :
  transcribe_audio U w expected = (log, inr r) ->
  (length (word_evaluations r) <= 100)%nat ->
  exists k, (0 <= k <= 1000)%Z /\ overall_score r = float_literal (k # 10).
Proof.
  intros H Hlen.
  destruct (transcribe_audio_inversion U w expected log r H)
    as (_ & _ & _ & _ & _ & _ & _ & _ & Hs & _).
  destruct (length (word_evaluations r)) as [|n] eqn:En.
  - exists 0%Z. split; [lia|]. rewrite Hs. reflexivity.
  - pose proof (count_correct_le (word_evaluations r)) as Hc. rewrite En in Hc.
    pose proof (score_is_decimal_up_to_100 (count_correct (word_evaluations r)) (S n)
                  (conj (le_n_S _ _ (Nat.le_0_l n)) Hlen) Hc) as Hd.
    unfold score_is_decimal in Hd. rewrite !andb_true_iff in Hd.
    destruct Hd as [[Hlo Hhi] Heq].
    apply Z.leb_le in Hlo. apply Z.leb_le in Hhi. apply spec_float_eqb_eq in Heq.
    exists (score_tenths (Z.of_nat (count_correct (word_evaluations r)))
                         (Z.of_nat (S n))).
    split; [lia|]. rewrite Hs. exact Heq.
Qed.

Lemma overall_score_is_a_percentage_witness :
  exists log r,
    transcribe_audio Sample.ucd (provider_says (u "como chama")) (u "Como se chama?")
    = (log, inr r)
    /\ exists k, (0 <= k <= 1000)%Z /\ overall_score r = float_literal (k # 10).
Proof.
  eexists. eexists. split; [vm_compute; reflexivity|].
  refine (overall_score_is_a_percentage Sample.ucd
            (provider_says (u "como chama")) (u "Como se chama?") _ _ _ _).
  - vm_compute. reflexivity.
  - vm_compute. repeat constructor.
Defined.

(** ** What the provider is asked *)

(** X9. Every request reads the upload first and once.  If the provider is
    called, it is with the bytes read, the model ["scribe_v1"], the language
    ["por"] and audio-event tagging off; and the calls a request makes do not
    depend on the expected phrase. *)
Theorem provider_request_is_fixed (U : UnicodeData) (w : world) (expected : pystr) :
  let log := fst (transcribe_audio U w expected) in
  hd_error log = Some AudioRead
  /\ audio_reads log = 1%nat
  /\ (forall request, In (ProviderCall request) log ->
        audio_read w = inr (file request)
        /\ model_id request = u "scribe_v1"
        /\ language_code request = u "por"
        /\ tag_audio_events request = false)
  /\ (forall expected', fst (transcribe_audio U w expected') = log).
Proof.
  intros log. subst log.
  destruct (audio_read w) as [e|audio] eqn:Ha.
  - rewrite (transcribe_audio_upload_error U w expected e Ha). simpl.
    split; [reflexivity|]. split; [reflexivity|]. split.
    + intros request [E|[]]. discriminate E.
    + intros e'. now rewrite (transcribe_audio_upload_error U w e' e Ha).
  - assert (Hlog : forall x, fst (transcribe_audio U w x)
                             = [AudioRead; ProviderCall (request_for audio)]).
    { intros x. destruct (speech_to_text_convert w (request_for audio)) as [e|t] eqn:Hp.
      - now rewrite (transcribe_audio_provider_error U w x audio e Ha Hp).
      - pose proof (transcribe_audio_success U w x audio t Ha Hp) as Hs.
        simpl in Hs. now rewrite Hs. }
    rewrite (Hlog expected). split; [reflexivity|]. split; [reflexivity|]. split.
    + intros request [E|[E|[]]]; [discriminate E|].
      injection E as <-. simpl. repeat split; reflexivity.
    + exact Hlog.
Qed.

(** ** The catalogue by position *)

(** X10. [get_phrase] succeeds exactly for the ids 1 to 10; the phrase with
    id [i] carries that id and is the [i]-th entry of [get_phrases], and any
    other id gives 404. *)
Theorem get_phrase_by_position (i : Z) :
  ((1 <= i <= 10)%Z ->
     exists p, get_phrase i = inr p /\ id p = i
               /\ nth_error get_phrases (Z.to_nat (i - 1)) = Some p)
  /\ ((i < 1 \/ 10 < i)%Z ->
       get_phrase i = inl {| status_code := 404; detail := u "Phrase not found" |}).
Proof.
  split.
  - intros Hi.
    assert (H : (i = 1 \/ i = 2 \/ i = 3 \/ i = 4 \/ i = 5 \/ i = 6 \/ i = 7
                 \/ i = 8 \/ i = 9 \/ i = 10)%Z) by lia.
    repeat (destruct H as [->|H]); try subst i;
      (eexists; split; [reflexivity | split; reflexivity]).
  - intros Hi. apply find_phrase_missing. intros p Hp.
    apply (in_map id) in Hp. rewrite catalogue_ids in Hp. simpl in Hp. lia.
Qed.

Lemma get_phrase_by_position_witness :
  (1 <= 7 <= 10)%Z
  /\ exists p, get_phrase 7 = inr p /\ phrase p = u "Até logo".
Proof.
  split; [lia|].
  assert (H : (1 <= 7 <= 10)%Z) by lia.
  destruct (proj1 (get_phrase_by_position 7) H) as [p [Hp _]].
  exists p. split; [exact Hp|]. vm_compute in Hp. injection Hp as <-. reflexivity.
Defined.

(** ** Reading a catalogue phrase back *)





(** ** The test script *)
Section ScriptFacts.

Import Script.

Variable w : client_world.









End ScriptFacts.


(** X13. The audio file named on the command line: it is the argument that
    follows the first ["--with-audio"], and ["sample.mp3"] when that flag is
    the last argument. *)
Theorem audio_path_follows_flag (before : list pystr) :
  ~ In Script.WITH_AUDIO before ->
  (forall path after,
      Script.audio_path_of (before ++ Script.WITH_AUDIO :: path :: after) = path)
  /\ Script.audio_path_of (before ++ [Script.WITH_AUDIO]) = u "sample.mp3"
  /\ (forall after, contains Script.WITH_AUDIO (before ++ Script.WITH_AUDIO :: after) = true).
Proof.
  intros Hnot.
  assert (Hidx : forall after,
             Script.list_index Script.WITH_AUDIO (before ++ Script.WITH_AUDIO :: after)
             = Some (length before)).
  { intros after. induction before as [|x before IH]; simpl.
    - destruct (pystr_eq_dec Script.WITH_AUDIO Script.WITH_AUDIO); [reflexivity | contradiction].
    - destruct (pystr_eq_dec x Script.WITH_AUDIO) as [->|_].
      + exfalso. apply Hnot. now left.
      + rewrite IH; [reflexivity|]. intros Hin. apply Hnot. now right. }
  split; [|split].
  - intros path after. unfold Script.audio_path_of. rewrite Hidx.
    rewrite length_app. simpl length.
    replace (length before + 1 <? length before + S (S (length after)))%nat with true
      by (symmetry; apply Nat.ltb_lt; lia).
    rewrite app_nth2 by lia.
    replace (length before + 1 - length before)%nat with 1%nat by lia. reflexivity.
  - unfold Script.audio_path_of. rewrite Hidx. rewrite length_app. simpl length.
    replace (length before + 1 <? length before + 1)%nat with false
      by (symmetry; apply Nat.ltb_ge; lia).
    reflexivity.
  - intros after. apply contains_In. apply in_or_app. right. now left.
Qed.

Lemma audio_path_follows_flag_witness :
  ~ In Script.WITH_AUDIO [u "test_backend.py"]
  /\ Script.audio_path_of [u "test_backend.py"; u "--with-audio"; u "ola.mp3"]
     = u "ola.mp3".
Proof.
  assert (H : ~ In Script.WITH_AUDIO [u "test_backend.py"]).
  { intros [E|[]]. vm_compute in E. discriminate E. }
  split; [exact H|].
  exact (proj1 (audio_path_follows_flag [u "test_backend.py"] H) (u "ola.mp3") []).
Defined.







(** ** The script against the backend *)








